(** * useRetryFn: the retry control loop

    A shallow embedding of [useRetryFn] (src/index.js, TypeScript part)
    and the properties of its attempt loop: attempt counting, the race
    against the per-attempt timer, the skip capability, the [onError]
    hook, the delay between attempts and the terminal error.

    The caller-supplied closures ([fn], [options.onError],
    [options.delay]) are modelled by what the loop can observe of them:
    for each invocation, the calls they make to the [skipRetry]
    capability, and how they complete.  The run of the loop is recorded
    as a log of events, each with the values of the four mutable
    variables after it.

    What is left out.  A call to the capability that comes after the
    race of its attempt is decided, or after the hook has returned,
    cannot change the course of the loop: [skipRetry] has been tested,
    and the next iteration declares its own [customError] and
    [skipRetry].  The same holds for a timer that lost its race and
    fires later.  Such late events are not part of the model.  The
    behaviour of the operation is a function of the [attempts] it
    receives, not of the time that has passed.  [maxAttempts] is
    modelled by the integer the loop test compares [attempts] with (a
    fraction counts as the integer below it, [NaN] as 0; [Infinity],
    with which the loop need not end, is left out), and [timeout] is
    not negative. *)

From Stdlib Require Import String DecimalString ZArith NArith List Bool Lia.
From Equations Require Import Equations.
Import ListNotations.

Local Open Scope Z_scope.

Set Implicit Arguments.

(** ** JavaScript values that flow through the loop *)

(** [new Error(message)]. *)
Record Error : Type := mkError { message : string }.

(** The values held by [lastError] and [customError], passed to the
    capability, thrown by the callbacks and thrown by [useRetryFn]. *)
Inductive jsval : Type :=
| Undefined
| Null
| Err (e : Error).

(** [new Error('Operation timed out')] *)
Definition timeout_error : jsval := Err (mkError "Operation timed out"%string).

(** [a ?? b] *)
Definition nullish (a b : jsval) : jsval :=
  match a with
  | Undefined | Null => b
  | Err _ => a
  end.

(** Truthiness: [undefined] and [null] are falsy, an object is truthy. *)
Definition truthy (a : jsval) : bool :=
  match a with
  | Undefined | Null => false
  | Err _ => true
  end.

(** [a || b] *)
Definition js_or (a b : jsval) : jsval := if truthy a then a else b.

(** ** The caller's side *)

Section Retry.

(** The type of the operation's result, [T] in [UseRetryFn<T>]. *)
Variable T : Type.

(** How the promise returned by one invocation of [fn] settles; [t] is
    the time that takes, in the unit of [options.timeout].  A
    synchronous [return] or [throw] is a settlement at time 0. *)
Inductive settle : Type :=
| Resolves (t : N) (v : T)
| Rejects (t : N) (err : jsval)
| NeverSettles.

(** One invocation of [fn]: the arguments of the calls it makes to
    [skipRetry] before the race of its attempt is decided, in order,
    and how its promise settles. *)
Record op_run : Type := mkOp {
  op_skips : list jsval;
  op_settle : settle
}.

(** One invocation of [options.onError], which is not awaited: its
    calls to [skipRetry] before it returns, then either a normal return
    ([None]) or a thrown value. *)
Record hook_run : Type := mkHook {
  hook_skips : list jsval;
  hook_throws : option jsval
}.

(** [UseRetryFn<T>]: the behaviour of the invocation that receives the
    [UseRetryFnContext] [{attempts, skipRetry}], as a function of
    [attempts]. *)
Definition UseRetryFn : Type := Z -> op_run.

(** What a call of the delay function does: it returns a number, or
    it throws. *)
Inductive delay_result : Type :=
| DelayIs (d : Z)
| DelayThrows (thrown : jsval).

(** [number | (({attempts}) => number)] *)
Inductive delay_option : Type :=
| DelayNumber (d : Z)
| DelayFunction (f : Z -> delay_result).

(** [UseRetryFnOptions]; [None] is an absent field. *)
Record UseRetryFnOptions : Type := mkOptions {
  delay : option delay_option;
  onError : option (Z -> hook_run);
  maxAttempts : option Z;
  timeout : option N
}.

(** [useRetryFn(fn)]: [options = {}] *)
Definition no_options : UseRetryFnOptions :=
  mkOptions None None None None.

(** ** The state of one call *)

(** [attempts] and [lastError] live for the whole call; [customError]
    and [skipRetry] are declared afresh by every iteration. *)
Record state : Type := mkState {
  attempts : Z;
  lastError : jsval;
  customError : jsval;
  skipRetry : bool
}.

Inductive event : Type :=
| IterStart                 (* let customError = null; let skipRetry = false *)
| DelayCall (a : Z)         (* options.delay({attempts}) *)
| OpCall (a : Z)            (* fn({attempts, skipRetry}) *)
| SkipCall (err : jsval)    (* skipRetry(err) *)
| TimerFired                (* skipRetry = true; reject(new Error(...)) *)
| Catch (err : jsval)       (* lastError = err; attempts++ *)
| OnErrorCall (a : Z)       (* options.onError({attempts, skipRetry}) *)
| SkipTest                  (* if (skipRetry) *)
| Sleep (d : Z)             (* await new Promise(r => setTimeout(r, delay)) *)
| LoopExit.                 (* attempts <= maxAttempts is false *)

(** An event and the state after it. *)
Definition entry : Type := event * state.
Definition log : Type := list entry.

(** What the promise returned by [useRetryFn] does. *)
Inductive result : Type :=
| Resolved (v : T)
| Rejected (err : jsval)
| Pending.

(** ** The capability *)

(** [(err) => { customError = err ?? null; skipRetry = true; }] *)
Definition requestSkip (err : jsval) (s : state) : state :=
  mkState (attempts s) (lastError s) (nullish err Null) true.

(** The calls one callback makes to the capability, in order: the
    state they leave, and their entries in the log. *)
Fixpoint after_skips (errs : list jsval) (s : state) : state :=
  match errs with
  | [] => s
  | err :: rest => after_skips rest (requestSkip err s)
  end.

Fixpoint skips_log (errs : list jsval) (s : state) : log :=
  match errs with
  | [] => []
  | err :: rest =>
      (SkipCall err, requestSkip err s) :: skips_log rest (requestSkip err s)
  end.

(** ** The race *)

(** [...(options.timeout ? [timer] : [])]: an absent or zero timeout
    arms no timer. *)
Definition timer (o : UseRetryFnOptions) : option N :=
  match timeout o with
  | Some t => if (t =? 0)%N then None else Some t
  | None => None
  end.

Inductive raced : Type :=
| Fulfilled (v : T)
| Failed (err : jsval)
| TimedOut
| Hung.

(** [await Promise.race([fn(...), timer])].  The timer wins when the
    operation settles strictly later than it, or never; the operation's
    promise comes first in the array and wins a tie.  When [fn] throws
    synchronously the timer is not even created. *)
Definition race (o : UseRetryFnOptions) (c : settle) : raced :=
  match timer o, c with
  | None, Resolves _ v => Fulfilled v
  | None, Rejects _ err => Failed err
  | None, NeverSettles => Hung
  | Some t, Resolves d v => if (d <=? t)%N then Fulfilled v else TimedOut
  | Some t, Rejects d err => if (d <=? t)%N then Failed err else TimedOut
  | Some t, NeverSettles => TimedOut
  end.

(** ** One iteration of the loop *)

Variable fn : UseRetryFn.
Variable options : UseRetryFnOptions.

(** [options.maxAttempts ?? 5] *)
Definition max_attempts : Z :=
  match maxAttempts options with
  | Some m => m
  | None => 5
  end.

(** [typeof options.delay === 'function' ? options.delay({attempts})
    : (options.delay ?? 100)], with [attempts] = [a]: what it
    evaluates to, and the call it takes. *)
Definition delay_at (a : Z) : delay_result :=
  match delay options with
  | Some (DelayFunction f) => f a
  | Some (DelayNumber d) => DelayIs d
  | None => DelayIs 100
  end.

Definition delay_log (s : state) : log :=
  match delay options with
  | Some (DelayFunction _) => [(DelayCall (attempts s), s)]
  | _ => []
  end.

(** How an iteration ends: the function returns or throws, or the loop
    goes round. *)
Inductive flow : Type :=
| Exit (r : result)
| Continue.

(** The [catch] block up to the hook: [lastError = err; attempts++]. *)
Definition catch_error (err : jsval) (s : state) : state :=
  mkState (attempts s + 1) err (customError s) (skipRetry s).

(** [if (skipRetry) throw customError || lastError;] and then the
    sleep; [l] is the log of the iteration so far. *)
Definition decide (d : Z) (s : state) (l : log) : flow * state * log :=
  if skipRetry s
  then (Exit (Rejected (js_or (customError s) (lastError s))), s,
        l ++ [(SkipTest, s)])
  else (Continue, s, l ++ [(SkipTest, s); (Sleep d, s)]).

(** The [catch] block. *)
Definition handle (d : Z) (err : jsval) (s : state) (l : log)
  : flow * state * log :=
  let s1 := catch_error err s in
  let caught := l ++ [(Catch err, s1)] in
  match onError options with
  | Some h =>
      let hr := h (attempts s1) in
      let s2 := after_skips (hook_skips hr) s1 in
      let hooked :=
        caught ++ (OnErrorCall (attempts s1), s1) :: skips_log (hook_skips hr) s1 in
      match hook_throws hr with
      | Some thrown => (Exit (Rejected thrown), s2, hooked)
      | None => decide d s2 hooked
      end
  | None => decide d s1 caught
  end.

(** [setTimeout(() => { skipRetry = true; reject(...) }, options.timeout)] *)
Definition timer_fires (s : state) : state :=
  mkState (attempts s) (lastError s) (customError s) true.

(** The [try] and its [catch], once [delay] holds [d]. *)
Definition attempt (d : Z) (s0 : state) : flow * state * log :=
  let run := fn (attempts s0) in
  let s1 := after_skips (op_skips run) s0 in
  let called :=
    (IterStart, s0) :: delay_log s0
      ++ (OpCall (attempts s0), s0) :: skips_log (op_skips run) s0 in
  match race options (op_settle run) with
  | Fulfilled v => (Exit (Resolved v), s1, called)
  | Hung => (Exit Pending, s1, called)
  | Failed err => handle d err s1 called
  | TimedOut =>
      handle d timeout_error (timer_fires s1)
             (called ++ [(TimerFired, timer_fires s1)])
  end.

(** The body of the [while].  The delay is computed outside the [try]:
    what a delay function throws leaves [useRetryFn] at once. *)
Definition iteration (s : state) : flow * state * log :=
  let s0 := mkState (attempts s) (lastError s) Null false in
  match delay_at (attempts s0) with
  | DelayIs d => attempt d s0
  | DelayThrows thrown =>
      (Exit (Rejected thrown), s0, (IterStart, s0) :: delay_log s0)
  end.

(** ** The loop *)

Lemma after_skips_attempts (errs : list jsval) (s : state) :
  attempts (after_skips errs s) = attempts s.
Proof.
  revert s; induction errs as [|err rest IH]; intro s; simpl.
  - reflexivity.
  - rewrite IH. reflexivity.
Qed.

Lemma decide_state (d : Z) (s : state) (l : log) :
  snd (fst (decide d s l)) = s.
Proof. unfold decide; destruct (skipRetry s); reflexivity. Qed.

Lemma handle_attempts (d : Z) (err : jsval) (s : state) (l : log) :
  attempts (snd (fst (handle d err s l))) = attempts s + 1.
Proof.
  unfold handle.
  destruct (onError options) as [h|].
  - destruct (hook_throws _); [cbn [fst snd] | rewrite decide_state];
      rewrite after_skips_attempts; reflexivity.
  - rewrite decide_state. reflexivity.
Qed.

Lemma iteration_continue (s s' : state) (l : log) :
  iteration s = (Continue, s', l) -> attempts s' = attempts s + 1.
Proof.
  unfold iteration. destruct (delay_at _) as [d|thrown]; [|discriminate].
  unfold attempt.
  destruct (race options _) as [v|err| |]; try discriminate; intro H;
    match type of H with
    | handle ?d ?e ?s1 ?l0 = _ => pose proof (handle_attempts d e s1 l0) as Hh
    end;
    rewrite H in Hh; cbn [fst snd] in Hh; rewrite Hh;
    unfold timer_fires; cbn [attempts];
    rewrite after_skips_attempts; reflexivity.
Qed.

(** Keeps the equation of a matched value for the termination proof. *)
Definition inspect {A : Type} (a : A) : {b : A | a = b} := exist _ a eq_refl.

(** [while (attempts <= maxAttempts) { ... } throw lastError;] *)
Equations? loop (s : state) : result * log
  by wf (Z.to_nat (max_attempts + 1 - attempts s)) lt :=
  loop s with Z_le_gt_dec (attempts s) max_attempts := {
    | right _ => (Rejected (lastError s), [(LoopExit, s)])
    | left _ with inspect (iteration s) := {
        | exist _ (Exit r, _, l) _ => (r, l)
        | exist _ (Continue, s', l) Hit =>
            let '(r, l') := loop s' in (r, l ++ l') } }.
Proof.
  apply iteration_continue in Hit. lia.
Qed.

(** [let attempts = 1; let lastError = null;] The two per-iteration
    variables do not exist yet; they are shown with the values every
    iteration gives them first. *)
Definition init_state : state := mkState 1 Null Null false.

(** [useRetryFn(fn, options)]: what the returned promise does, and the
    log of the call. *)
Definition useRetryFn : result * log := loop init_state.

(** ** Reading the log *)

(** The entries an observer of one kind sees, in order. *)
Definition select {A : Type} (f : event -> option A) (l : log) : list A :=
  flat_map (fun e : entry => match f (fst e) with Some a => [a] | None => [] end) l.

(** The [attempts] values [fn] was invoked with. *)
Definition op_ordinals : log -> list Z :=
  select (fun ev => match ev with OpCall a => Some a | _ => None end).

(** The [attempts] values [options.delay] was invoked with. *)
Definition delay_ordinals : log -> list Z :=
  select (fun ev => match ev with DelayCall a => Some a | _ => None end).

(** The [attempts] values [options.onError] was invoked with. *)
Definition onError_ordinals : log -> list Z :=
  select (fun ev => match ev with OnErrorCall a => Some a | _ => None end).

(** The delays that were awaited. *)
Definition sleeps : log -> list Z :=
  select (fun ev => match ev with Sleep d => Some d | _ => None end).

(** The errors of the failed attempts, as caught. *)
Definition failures : log -> list jsval :=
  select (fun ev => match ev with Catch err => Some err | _ => None end).

(** The failures and the hook invocations, interleaved as they happened. *)
Definition failure_view : log -> list event :=
  select (fun ev => match ev with
                    | Catch _ | OnErrorCall _ => Some ev
                    | _ => None
                    end).

(** How many times [fn] was invoked, and how many delays were awaited. *)
Definition op_calls (l : log) : nat := length (op_ordinals l).
Definition delays_awaited (l : log) : nat := length (sleeps l).

(** The state after the last entry of [l], [s] when there is none. *)
Fixpoint last_state (s : state) (l : log) : state :=
  match l with
  | [] => s
  | e :: rest => last_state (snd e) rest
  end.

(** Every entry is related to the state before it. *)
Fixpoint chain (R : state -> entry -> Prop) (s : state) (l : log) : Prop :=
  match l with
  | [] => True
  | e :: rest => R s e /\ chain R (snd e) rest
  end.

(** ** The vocabulary of the claims *)

(** The timer of attempt [a] fires before the operation settles. *)
Definition timed_out (a : Z) : bool :=
  match race options (op_settle (fn a)) with
  | TimedOut => true
  | _ => false
  end.

(** The error the [catch] block receives when attempt [a] fails. *)
Definition attempt_error (a : Z) : option jsval :=
  match race options (op_settle (fn a)) with
  | Failed err => Some err
  | TimedOut => Some timeout_error
  | _ => None
  end.

(** The calls to the capability by the hook that follows the failure
    of attempt [a], and what that hook throws. *)
Definition hook_skip_calls (a : Z) : list jsval :=
  match onError options with
  | Some h => hook_skips (h (a + 1))
  | None => []
  end.

Definition hook_thrown (a : Z) : option jsval :=
  match onError options with
  | Some h => hook_throws (h (a + 1))
  | None => None
  end.

(** All the calls to the capability that belong to attempt [a]: those
    of the operation, then those of the hook. *)
Definition skip_calls (a : Z) : list jsval :=
  op_skips (fn a) ++ hook_skip_calls a.

(** What the delay function throws when called with [attempts] = [a]. *)
Definition delay_thrown (a : Z) : option jsval :=
  match delay_at a with
  | DelayThrows thrown => Some thrown
  | DelayIs _ => None
  end.

(** Attempt [a] fails with [err] and the loop goes round: the delay
    is computed, the operation rejects before any timer, nobody calls
    the capability and the hook returns. *)
Definition retried (a : Z) (err : jsval) : Prop :=
  (exists d, op_settle (fn a) = Rejects d err) /\
  timed_out a = false /\
  skip_calls a = [] /\
  hook_thrown a = None /\
  delay_thrown a = None.

(** The same, decided from the behaviour of the callbacks: the loop
    goes round after attempt [a]. *)
Definition retries (a : Z) : bool :=
  match race options (op_settle (fn a)) with
  | Failed _ =>
      match skip_calls a, hook_thrown a with
      | [], None => true
      | _, _ => false
      end
  | _ => false
  end.

(** What an observer of failures and hook invocations sees of attempt
    [a]: nothing when it does not fail; its failure, and then the hook
    if there is one, with [attempts] = [a + 1], when it does. *)
Definition failure_events (a : Z) : list event :=
  match attempt_error a with
  | Some err =>
      Catch err :: match onError options with
                   | Some _ => [OnErrorCall (a + 1)]
                   | None => []
                   end
  | None => []
  end.

(** The delay awaited after attempt [a]: the one computed before it,
    if the loop goes round. *)
Definition delay_awaited (a : Z) : list Z :=
  match delay_at a with
  | DelayIs d => if retries a then [d] else []
  | DelayThrows _ => []
  end.

(** Attempt [a] takes place in a call: it is allowed, its delay is
    computed, and every attempt before it was retried. *)
Definition takes_place (a : Z) : Prop :=
  1 <= a <= max_attempts /\
  delay_thrown a = None /\
  forall b, 1 <= b < a -> delay_thrown b = None /\ retries b = true.



(** The operation settles strictly later than [t], or never. *)
Definition exceeds (t : N) (c : settle) : Prop :=
  match c with
  | Resolves d _ | Rejects d _ => (t < d)%N
  | NeverSettles => True
  end.

End Retry.

Arguments Rejects {T} t err.
Arguments NeverSettles {T}.
Arguments Rejected {T} err.
Arguments Pending {T}.
Arguments Failed {T} err.
Arguments TimedOut {T}.
Arguments Hung {T}.
Arguments Continue {T}.

(** * The properties: definitions *)

(** ** Lists of consecutive ordinals *)

(** [a; a+1; ...], [n] of them. *)
Fixpoint ordinals (a : Z) (n : nat) : list Z :=
  match n with
  | O => []
  | S n' => a :: ordinals (a + 1) n'
  end.

(** ** The hook and the failures *)

(** What an observer of failures and hook invocations sees when the
    failures [errs] occur, the first of them being failure number [j]
    of the call: each failure, then the hook with [attempts] one more
    than that number. *)
Fixpoint hooked_failures (j : Z) (errs : list jsval) : list event :=
  match errs with
  | [] => []
  | err :: rest => Catch err :: OnErrorCall (j + 1) :: hooked_failures (j + 1) rest
  end.

(** ** The counter and the latch *)

(** What one entry of the log may do to the state before it:
    [attempts] is incremented by a failure and by nothing else; a
    latched [skipRetry] stays latched; a call of the capability latches
    [skipRetry] and sets [customError] to its argument, [null] for
    none, and touches nothing else. *)
Definition step_invariant (s : state) (e : entry) : Prop :=
  attempts (snd e) =
    match fst e with Catch _ => attempts s + 1 | _ => attempts s end /\
  (skipRetry s = true -> skipRetry (snd e) = true) /\
  (forall err, fst e = SkipCall err ->
               snd e = mkState (attempts s) (lastError s) (nullish err Null) true).

(** [l] respects [step_invariant] from [s] on, and leaves [s']. *)
Definition runs (s : state) (l : log) (s' : state) : Prop :=
  chain step_invariant s l /\ last_state s l = s'.

(** ** The operations of the repository's tests *)

(** [new Error(`Attempt ${attempts} failed`)] *)
Definition attempt_failed (a : Z) : jsval :=
  Err (mkError ("Attempt " ++ NilZero.string_of_int (Z.to_int a) ++ " failed")%string).

(** [({attempts}) => { if (attempts <= n) throw new Error(...);
    return 'success'; }] *)
Definition fails_until (n : Z) : UseRetryFn string :=
  fun a =>
    if a <=? n
    then mkOp [] (Rejects 0 (attempt_failed a))
    else mkOp [] (Resolves 0 "success"%string).

(** [({attempts}) => { throw new Error(`Attempt ${attempts} failed`); }] *)
Definition always_fails : UseRetryFn string :=
  fun a => mkOp [] (Rejects 0 (attempt_failed a)).

(** [() => new Promise(resolve => setTimeout(() => resolve('success'), 2000))] *)
Definition slow_success : UseRetryFn string :=
  fun _ => mkOp [] (Resolves 2000 "success"%string).

(** [async () => { await sleep(2000); throw new Error('boom'); }] *)
Definition slow_failure : UseRetryFn string :=
  fun _ => mkOp [] (Rejects 2000 (Err (mkError "boom"%string))).

(** [({skipRetry}) => skipRetry()] as [onError] *)
Definition skipping_hook : Z -> hook_run :=
  fun _ => mkHook [Undefined] None.

(** [() => { throw new Error('hook failed'); }] as [onError] *)
Definition throwing_hook : Z -> hook_run :=
  fun _ => mkHook [] (Some (Err (mkError "hook failed"%string))).

(** [({attempts, skipRetry}) => { if (attempts === 2) skipRetry(new
    Error('Custom error')); throw new Error('Regular error'); }] *)
Definition skips_on_second : UseRetryFn string :=
  fun a =>
    mkOp (if a =? 2 then [Err (mkError "Custom error"%string)] else [])
         (Rejects 0 (Err (mkError "Regular error"%string))).

(** [({skipRetry}) => { skipRetry(new Error('Custom error'));
    skipRetry(); throw new Error('Regular error'); }] *)
Definition skips_then_withdraws : UseRetryFn string :=
  fun _ =>
    mkOp [Err (mkError "Custom error"%string); Undefined]
         (Rejects 0 (Err (mkError "Regular error"%string))).

(** [({skipRetry}) => { skipRetry(new Error('Custom error'));
    throw new Error('Regular error'); }] *)
Definition skips_at_once : UseRetryFn string :=
  fun _ =>
    mkOp [Err (mkError "Custom error"%string)]
         (Rejects 0 (Err (mkError "Regular error"%string))).

(** [({skipRetry}) => skipRetry(new Error('Custom error'))] as [onError] *)
Definition overriding_hook : Z -> hook_run :=
  fun _ => mkHook [Err (mkError "Custom error"%string)] None.

(** [({skipRetry}) => { skipRetry(new Error('Custom error'));
    return new Promise(() => {}); }] *)
Definition skips_then_hangs : UseRetryFn string :=
  fun _ => mkOp [Err (mkError "Custom error"%string)] NeverSettles.

(** The times the loop ended by its test, [attempts <= maxAttempts]
    being false, rather than by a [return] or a [throw] of its body. *)
Definition loop_exits : log -> list unit :=
  select (fun ev => match ev with LoopExit => Some tt | _ => None end).

(** [({attempts}) => attempts === 2 ? new Promise(resolve =>
    setTimeout(() => resolve('success'), 2000)) : Promise.reject(new
    Error(`Attempt ${attempts} failed`))] *)
Definition slow_on_second : UseRetryFn string :=
  fun a =>
    if a =? 2
    then mkOp [] (Resolves 2000 "success"%string)
    else mkOp [] (Rejects 0 (attempt_failed a)).

(** [() => {}] as [onError] *)
Definition silent_hook : Z -> hook_run := fun _ => mkHook [] None.

(** [() => { throw new Error('delay failed'); }] as [delay] *)
Definition throwing_delay : Z -> delay_result :=
  fun _ => DelayThrows (Err (mkError "delay failed"%string)).

(** [({attempts}) => { if (attempts === 2) throw new Error('delay
    failed'); return 10; }] as [delay] *)
Definition delay_throws_on_second : Z -> delay_result :=
  fun a => if a =? 2 then DelayThrows (Err (mkError "delay failed"%string))
           else DelayIs 10.

(** * Lemmas *)

(** ** Projections of a log *)

Section Select.

Context {A : Type} (f : event -> option A).

Lemma select_nil : select f [] = [].
Proof. reflexivity. Qed.

Lemma select_cons (e : entry) (l : log) :
  select f (e :: l) =
  match f (fst e) with Some a => a :: select f l | None => select f l end.
Proof. unfold select; simpl. destruct (f (fst e)); reflexivity. Qed.

Lemma select_app (l1 l2 : log) : select f (l1 ++ l2) = select f l1 ++ select f l2.
Proof. unfold select. apply flat_map_app. Qed.

Lemma select_skips (errs : list jsval) (s : state) :
  (forall err, f (SkipCall err) = None) ->
  select f (skips_log errs s) = [].
Proof.
  intro Hf. revert s; induction errs as [|err rest IH]; intro s.
  - reflexivity.
  - cbn [skips_log]. rewrite select_cons; cbn [fst]. rewrite Hf. apply IH.
Qed.

End Select.

(** ** Unfolding the loop *)

Section Loop.

Context {T : Type} (fn : UseRetryFn T) (options : UseRetryFnOptions).

Local Abbreviation max := (max_attempts options).

Lemma loop_exit (s : state) :
  attempts s > max ->
  loop fn options s = (Rejected (lastError s), [(LoopExit, s)]).
Proof.
  intro Hgt. funelim (loop fn options s); try lia. reflexivity.
Qed.

Lemma loop_return (s s' : state) (r : result T) (l : log) :
  attempts s <= max ->
  iteration fn options s = (Exit r, s', l) ->
  loop fn options s = (r, l).
Proof.
  intros Hle Hit. funelim (loop fn options s); try lia; congruence.
Qed.

Lemma loop_continue (s s' : state) (l : log) :
  attempts s <= max ->
  iteration fn options s = (Continue, s', l) ->
  loop fn options s =
  (fst (loop fn options s'), l ++ snd (loop fn options s')).
Proof.
  intros Hle Hit. funelim (loop fn options s); try lia; try congruence.
  rewrite Hit in Hit0. injection Hit0 as <- <-.
  destruct (loop fn options s') as [r l']. reflexivity.
Qed.

(** Induction on the iterations of the loop. *)
Lemma loop_induction (P : state -> result T * log -> Prop) :
  (forall s, attempts s > max ->
             P s (Rejected (lastError s), [(LoopExit, s)])) ->
  (forall s s' r l, attempts s <= max ->
                    iteration fn options s = (Exit r, s', l) -> P s (r, l)) ->
  (forall s s' l, attempts s <= max ->
                  iteration fn options s = (Continue, s', l) ->
                  P s' (loop fn options s') ->
                  P s (fst (loop fn options s'), l ++ snd (loop fn options s'))) ->
  forall s, P s (loop fn options s).
Proof.
  intros Hexit Hret Hcont s.
  funelim (loop fn options s).
  - apply Hexit; assumption.
  - eapply Hret; eassumption.
  - match goal with
    | IH : forall Q, _ -> _ -> _ -> Q _ (loop _ _ _) |- _ =>
        specialize (IH P Hexit Hret Hcont);
        specialize (Hcont s s' l l1 Hit IH)
    end.
    destruct (loop fn options s') as [r l']. exact Hcont.
Qed.

End Loop.

(** ** One iteration, seen through the projections *)

Create Rewrite HintDb retry.

#[local] Hint Rewrite @select_app @select_nil : retry.

Ltac select_skips_away :=
  repeat rewrite select_skips by (intro; reflexivity).

(** Evaluates a projection on a log built from conses and appends. *)
Ltac project :=
  repeat (autorewrite with retry; select_skips_away;
          rewrite ?select_cons; cbn [fst snd app]).

(** Splits an iteration into the cases of its control flow. *)
Ltac split_iteration :=
  unfold iteration, attempt, handle, decide, delay_log; cbn [attempts];
  repeat match goal with
         | |- context [match delay_at ?o ?a with _ => _ end] =>
             destruct (delay_at o a) eqn:?
         | |- context [match race ?o ?c with _ => _ end] => destruct (race o c)
         | |- context [match onError ?o with _ => _ end] => destruct (onError o)
         | |- context [match hook_throws ?h with _ => _ end] =>
             destruct (hook_throws h)
         | |- context [if skipRetry ?s then _ else _] => destruct (skipRetry s) eqn:?
         | |- context [match delay ?o with _ => _ end] =>
             destruct (delay o) as [[?|?]|]
         end.

Section Iteration.

Context {T : Type} (fn : UseRetryFn T) (options : UseRetryFnOptions).

Lemma iteration_op_ordinals (s : state) :
  op_ordinals (snd (iteration fn options s)) =
  match delay_at options (attempts s) with
  | DelayIs _ => [attempts s]
  | DelayThrows _ => []
  end.
Proof.
  unfold op_ordinals. split_iteration; project; reflexivity.
Qed.

(** The loop goes round only when the delay has been computed. *)
Lemma iteration_continue_delay (s : state) :
  fst (fst (iteration fn options s)) = Continue ->
  exists d, delay_at options (attempts s) = DelayIs d.
Proof.
  unfold iteration. cbn [attempts].
  destruct (delay_at options (attempts s)) as [d|thrown]; cbn [fst].
  - intros _. exists d. reflexivity.
  - discriminate.
Qed.

Lemma iteration_op_ordinals_continue (s : state) :
  fst (fst (iteration fn options s)) = Continue ->
  op_ordinals (snd (iteration fn options s)) = [attempts s].
Proof.
  intro Hc. destruct (iteration_continue_delay s Hc) as [d Hd].
  rewrite iteration_op_ordinals, Hd. reflexivity.
Qed.

Lemma iteration_op_ordinals_in (s : state) (a : Z) :
  In a (op_ordinals (snd (iteration fn options s))) ->
  a = attempts s /\ exists d, delay_at options (attempts s) = DelayIs d.
Proof.
  rewrite iteration_op_ordinals.
  destruct (delay_at options (attempts s)) as [d|thrown]; [|intros []].
  intros [<-|[]]. split; [reflexivity | exists d; reflexivity].
Qed.

Lemma iteration_delay_ordinals (s : state) :
  delay_ordinals (snd (iteration fn options s)) =
  match delay options with
  | Some (DelayFunction _) => [attempts s]
  | _ => []
  end.
Proof.
  unfold delay_ordinals. split_iteration; project; reflexivity.
Qed.

Lemma iteration_sleeps (s : state) :
  sleeps (snd (iteration fn options s)) =
  match fst (fst (iteration fn options s)), delay_at options (attempts s) with
  | Continue, DelayIs d => [d]
  | _, _ => []
  end.
Proof.
  unfold sleeps. split_iteration; project; reflexivity.
Qed.

Lemma iteration_sleeps_length (s : state) :
  length (sleeps (snd (iteration fn options s))) =
  match fst (fst (iteration fn options s)) with
  | Continue => 1%nat
  | Exit _ => 0%nat
  end.
Proof.
  unfold sleeps. split_iteration; project; reflexivity.
Qed.

Lemma iteration_failures (s : state) :
  (length (failures (snd (iteration fn options s))) <=
   length (op_ordinals (snd (iteration fn options s))))%nat /\
  (length (op_ordinals (snd (iteration fn options s))) <= 1)%nat /\
  (fst (fst (iteration fn options s)) = Continue ->
   length (failures (snd (iteration fn options s))) = 1%nat).
Proof.
  unfold failures, op_ordinals.
  split_iteration; project; cbn [length]; repeat split; intros;
    (lia || discriminate).
Qed.

Lemma iteration_onError_ordinals (s : state) (h : Z -> hook_run) :
  onError options = Some h ->
  onError_ordinals (snd (iteration fn options s)) =
  map (fun _ => attempts s + 1) (failures (snd (iteration fn options s))).
Proof.
  intro Hh. unfold onError_ordinals, failures.
  unfold iteration, attempt, handle. rewrite Hh.
  split_iteration; project; unfold catch_error, timer_fires; cbn [attempts map];
    rewrite ?after_skips_attempts; reflexivity.
Qed.

End Iteration.

(** ** One iteration, read from the behaviour of the callbacks *)

Section IterationByInput.

Context {T : Type} (fn : UseRetryFn T) (options : UseRetryFnOptions).

Lemma after_skips_flag (errs : list jsval) (s : state) :
  skipRetry (after_skips errs s) =
  match errs with [] => skipRetry s | _ :: _ => true end.
Proof.
  destruct errs as [|e errs]; [reflexivity|]. cbn [after_skips].
  generalize (requestSkip e s) (eq_refl : skipRetry (requestSkip e s) = true).
  induction errs as [|e' errs IH]; intros s1 H1; [exact H1|].
  cbn [after_skips]. apply IH. reflexivity.
Qed.

Lemma iteration_failure_events (s : state) :
  failure_view (snd (iteration fn options s)) =
  flat_map (failure_events fn options) (op_ordinals (snd (iteration fn options s))).
Proof.
  rewrite iteration_op_ordinals. unfold failure_view, iteration. cbn [attempts].
  destruct (delay_at options (attempts s)) as [d|thrown]; cbn [flat_map];
    unfold failure_events, attempt_error;
    split_iteration; project; cbn [flat_map app];
    unfold catch_error, timer_fires; cbn [attempts];
    rewrite ?after_skips_attempts; cbn [attempts]; reflexivity.
Qed.

Lemma iteration_failures_by_input (s : state) :
  failures (snd (iteration fn options s)) =
  flat_map (fun a => match attempt_error fn options a with
                     | Some err => [err]
                     | None => []
                     end)
           (op_ordinals (snd (iteration fn options s))).
Proof.
  rewrite iteration_op_ordinals. unfold failures, iteration. cbn [attempts].
  destruct (delay_at options (attempts s)) as [d|thrown]; cbn [flat_map];
    unfold attempt_error;
    split_iteration; project; cbn [flat_map app]; reflexivity.
Qed.

Lemma iteration_goes_round (s : state) :
  fst (fst (iteration fn options s)) = Continue <->
  delay_thrown options (attempts s) = None /\ retries fn options (attempts s) = true.
Proof.
  unfold delay_thrown, retries, skip_calls, hook_skip_calls, hook_thrown.
  unfold iteration, attempt, handle, decide. cbn [attempts].
  destruct (delay_at options (attempts s)) as [d|thrown];
    [|split; [discriminate | intros [H _]; discriminate]].
  destruct (race options (op_settle (fn (attempts s)))) as [v|e| |]; cbn [fst];
    try (split; [discriminate | intros [_ H]; discriminate]).
  - unfold catch_error. cbn [attempts]. rewrite after_skips_attempts. cbn [attempts].
    destruct (onError options) as [h|].
    + destruct (hook_throws (h (attempts s + 1))) as [thrown|].
      * cbn [fst]. split; [discriminate|]. intros [_ H].
        destruct (op_skips (fn (attempts s)) ++ hook_skips (h (attempts s + 1)));
          discriminate.
      * rewrite after_skips_flag. cbn [skipRetry]. rewrite after_skips_flag.
        cbn [skipRetry].
        destruct (op_skips (fn (attempts s))) as [|o os],
                 (hook_skips (h (attempts s + 1))) as [|k ks];
          cbn [app fst]; split; try discriminate; try (intros [_ H]; discriminate);
          intros _; split; reflexivity.
    + rewrite app_nil_r. cbn [skipRetry]. rewrite after_skips_flag. cbn [skipRetry].
      destruct (op_skips (fn (attempts s))) as [|o os];
        cbn [fst]; split; try discriminate; try (intros [_ H]; discriminate);
        intros _; split; reflexivity.
  - unfold catch_error, timer_fires. cbn [attempts skipRetry].
    destruct (onError options) as [h|].
    + destruct (hook_throws _) as [thrown|]; cbn [fst];
        [split; [discriminate | intros [_ H]; discriminate]|].
      rewrite after_skips_flag. cbn [skipRetry].
      destruct (hook_skips _); cbn [fst];
        split; try discriminate; intros [_ H]; discriminate.
    + cbn [fst]. split; [discriminate | intros [_ H]; discriminate].
Qed.

Lemma iteration_delay_awaited (s : state) :
  sleeps (snd (iteration fn options s)) =
  flat_map (delay_awaited fn options) (op_ordinals (snd (iteration fn options s))).
Proof.
  rewrite iteration_sleeps, iteration_op_ordinals.
  pose proof (iteration_goes_round s) as Hg. unfold delay_thrown in Hg.
  unfold delay_awaited.
  destruct (delay_at options (attempts s)) as [d|thrown] eqn:Ed; cbn [flat_map].
  - rewrite Ed, app_nil_r.
    destruct (fst (fst (iteration fn options s))) as [r|].
    + destruct (retries fn options (attempts s)); [|reflexivity].
      destruct Hg as [_ Hg]. specialize (Hg (conj eq_refl eq_refl)). discriminate.
    + destruct Hg as [Hg _]. destruct (Hg eq_refl) as [_ ->]. reflexivity.
  - destruct (fst (fst (iteration fn options s))); reflexivity.
Qed.

Lemma retried_retries (a : Z) (err : jsval) :
  retried fn options a err ->
  delay_thrown options a = None /\ retries fn options a = true.
Proof.
  intros [[d Hd] [Ht [Hs [Hh Hdl]]]]. split; [exact Hdl|].
  unfold retries, timed_out in *. rewrite Hs, Hh.
  unfold race in *. rewrite Hd in *.
  destruct (timer options) as [t|]; [|reflexivity].
  destruct (d <=? t)%N; [reflexivity | discriminate].
Qed.

End IterationByInput.

(** ** The ordinals seen along a whole run *)

(** Brings a fact about [iteration fn options s] to the components of
    its value. *)
Ltac at_iteration Hit lemma name :=
  pose proof lemma as name; rewrite Hit in name; cbn [fst snd] in name.

Section Ordinals.

Context {T : Type} (fn : UseRetryFn T) (options : UseRetryFnOptions).

Lemma loop_op_ordinals (s : state) :
  op_ordinals (snd (loop fn options s)) =
  ordinals (attempts s) (op_calls (snd (loop fn options s))).
Proof.
  apply loop_induction with
    (P := fun s rl => op_ordinals (snd rl) = ordinals (attempts s) (op_calls (snd rl)));
    clear s; cbn [fst snd].
  - intros s _. reflexivity.
  - intros s s' r l _ Hit.
    at_iteration Hit (iteration_op_ordinals fn options s) Ho.
    unfold op_calls. rewrite Ho.
    destruct (delay_at options (attempts s)); reflexivity.
  - intros s s' l _ Hit IH.
    at_iteration Hit (iteration_op_ordinals_continue fn options s) Ho.
    specialize (Ho eq_refl).
    apply iteration_continue in Hit.
    unfold op_calls in *. unfold op_ordinals in *. rewrite select_app, Ho.
    cbn [app length ordinals]. rewrite IH at 1. rewrite Hit. reflexivity.
Qed.

(** What holds of every iteration, attempt by attempt, holds of the run. *)
Lemma loop_by_attempts {A B : Type} (f : event -> option A)
      (k : event -> option B) (g : B -> list A) (s : state) :
  f LoopExit = None -> k LoopExit = None ->
  (forall s0, select f (snd (iteration fn options s0)) =
              flat_map g (select k (snd (iteration fn options s0)))) ->
  select f (snd (loop fn options s)) =
  flat_map g (select k (snd (loop fn options s))).
Proof.
  intros Hf Hk Hit0.
  apply loop_induction with
    (P := fun s rl => select f (snd rl) = flat_map g (select k (snd rl)));
    clear s; cbn [fst snd].
  - intros s _. rewrite !select_cons. cbn [fst]. rewrite Hf, Hk. reflexivity.
  - intros s s' r l _ Hit. specialize (Hit0 s). rewrite Hit in Hit0. exact Hit0.
  - intros s s' l _ Hit IH. specialize (Hit0 s). rewrite Hit in Hit0.
    cbn [snd] in Hit0. rewrite !select_app, flat_map_app, Hit0, IH. reflexivity.
Qed.

Lemma loop_failure_events (s : state) :
  failure_view (snd (loop fn options s)) =
  flat_map (failure_events fn options) (op_ordinals (snd (loop fn options s))).
Proof.
  apply loop_by_attempts; try reflexivity. apply iteration_failure_events.
Qed.

Lemma loop_failures_by_input (s : state) :
  failures (snd (loop fn options s)) =
  flat_map (fun a => match attempt_error fn options a with
                     | Some err => [err]
                     | None => []
                     end)
           (op_ordinals (snd (loop fn options s))).
Proof.
  apply (loop_by_attempts _ _ _ s); try reflexivity.
  apply iteration_failures_by_input.
Qed.

Lemma loop_delay_awaited (s : state) :
  sleeps (snd (loop fn options s)) =
  flat_map (delay_awaited fn options) (op_ordinals (snd (loop fn options s))).
Proof.
  apply loop_by_attempts; try reflexivity. apply iteration_delay_awaited.
Qed.

Lemma loop_onError_ordinals (s : state) (h : Z -> hook_run) :
  onError options = Some h ->
  onError_ordinals (snd (loop fn options s)) =
  ordinals (attempts s + 1) (length (failures (snd (loop fn options s)))).
Proof.
  intro Hh.
  apply loop_induction with
    (P := fun s rl => onError_ordinals (snd rl) =
                      ordinals (attempts s + 1) (length (failures (snd rl))));
    clear s; cbn [fst snd].
  - intros s _. reflexivity.
  - intros s s' r l _ Hit.
    at_iteration Hit (@iteration_onError_ordinals T fn options s h Hh) Ho.
    at_iteration Hit (iteration_failures fn options s) Hf.
    rewrite Ho. destruct (failures l) as [|e [|e' rest]]; cbn [length] in *;
      [reflexivity | reflexivity | lia].
  - intros s s' l _ Hit IH.
    at_iteration Hit (@iteration_onError_ordinals T fn options s h Hh) Ho.
    at_iteration Hit (iteration_failures fn options s) Hf.
    apply iteration_continue in Hit.
    unfold onError_ordinals, failures in *. rewrite !select_app, Ho, IH, Hit.
    destruct Hf as [_ [_ Hf]]. specialize (Hf eq_refl).
    match goal with |- context [select ?g l] => destruct (select g l) as [|e [|e' rest]] end;
      cbn [length] in Hf; try discriminate.
    reflexivity.
Qed.

(** Every delay follows a failure, and every failure an invocation;
    only the last invocation can be other than a failure. *)
Lemma loop_counts (s : state) :
  let l := snd (loop fn options s) in
  (delays_awaited l <= length (failures l) <= op_calls l)%nat /\
  (op_calls l <= length (failures l) + 1)%nat.
Proof.
  apply loop_induction with
    (P := fun s rl =>
            (delays_awaited (snd rl) <= length (failures (snd rl)) <= op_calls (snd rl))%nat /\
            (op_calls (snd rl) <= length (failures (snd rl)) + 1)%nat);
    clear s; cbn [fst snd].
  - intros s _. cbn. lia.
  - intros s s' r l _ Hit.
    at_iteration Hit (iteration_sleeps_length fn options s) Hs.
    at_iteration Hit (iteration_failures fn options s) Hf.
    unfold delays_awaited, op_calls. rewrite Hs. cbn [length]. lia.
  - intros s s' l _ Hit IH.
    at_iteration Hit (iteration_sleeps_length fn options s) Hs.
    at_iteration Hit (iteration_failures fn options s) Hf.
    at_iteration Hit (iteration_op_ordinals_continue fn options s) Ho.
    specialize (Ho eq_refl).
    destruct Hf as [_ [_ Hf]]. specialize (Hf eq_refl).
    unfold delays_awaited, op_calls in *. unfold sleeps, failures, op_ordinals in *.
    rewrite !select_app, !length_app, Hs, Ho, Hf. cbn [length]. lia.
Qed.

(** Which attempts take place, from the state [s] on. *)
Lemma loop_takes_place (s : state) (a : Z) :
  In a (op_ordinals (snd (loop fn options s))) <->
  attempts s <= a <= max_attempts options /\
  delay_thrown options a = None /\
  forall b, attempts s <= b < a ->
            delay_thrown options b = None /\ retries fn options b = true.
Proof.
  apply loop_induction with
    (P := fun s rl =>
            In a (op_ordinals (snd rl)) <->
            attempts s <= a <= max_attempts options /\
            delay_thrown options a = None /\
            forall b, attempts s <= b < a ->
                      delay_thrown options b = None /\ retries fn options b = true);
    clear s; cbn [fst snd].
  - intros s Hgt. cbn. split; [intros [] | intros [H _]; lia].
  - intros s s' r l Hle Hit.
    at_iteration Hit (iteration_op_ordinals fn options s) Ho.
    at_iteration Hit (iteration_goes_round fn options s) Hg.
    rewrite Ho. unfold delay_thrown in *.
    split.
    + destruct (delay_at options (attempts s)) as [d|thrown] eqn:Ed; [|intros []].
      intros [<-|[]]. rewrite Ed. split; [lia|]. split; [reflexivity|].
      intros b Hb. lia.
    + intros [Ha [Hd Hall]].
      destruct (Z.eq_dec a (attempts s)) as [->|Hne].
      * destruct (delay_at options (attempts s)); [left; reflexivity | discriminate].
      * destruct (Hall (attempts s) ltac:(lia)) as [Hd0 Hr0].
        destruct Hg as [_ Hg]. specialize (Hg (conj Hd0 Hr0)). discriminate.
  - intros s s' l Hle Hit IH.
    at_iteration Hit (iteration_op_ordinals_continue fn options s) Ho.
    at_iteration Hit (iteration_goes_round fn options s) Hg.
    specialize (Ho eq_refl). destruct Hg as [Hg _]. destruct (Hg eq_refl) as [Hd0 Hr0].
    apply iteration_continue in Hit.
    unfold op_ordinals in *. rewrite select_app, Ho. cbn [app In].
    rewrite IH, Hit. split.
    + intros [<-|[Ha [Hd Hall]]].
      * split; [lia|]. split; [exact Hd0|]. intros b Hb; lia.
      * split; [lia|]. split; [exact Hd|]. intros b Hb.
        destruct (Z.eq_dec b (attempts s)) as [->|Hne];
          [split; assumption | apply Hall; lia].
    + intros [Ha [Hd Hall]].
      destruct (Z.eq_dec a (attempts s)) as [->|Hne]; [left; reflexivity|].
      right. split; [lia|]. split; [exact Hd|]. intros b Hb. apply Hall. lia.
Qed.

End Ordinals.

(** ** The calls of a delay function *)

Section DelayCalls.

Context {T : Type} (fn : UseRetryFn T) (options : UseRetryFnOptions).
Context (f : Z -> delay_result) (Hf : delay options = Some (DelayFunction f)).

(** The operation is invoked after each call of the delay function
    that returns, with the same [attempts]. *)
Lemma loop_delay_then_op (s : state) :
  op_ordinals (snd (loop fn options s)) =
  flat_map (fun a => match f a with DelayIs _ => [a] | DelayThrows _ => [] end)
           (delay_ordinals (snd (loop fn options s))).
Proof.
  apply loop_by_attempts; try reflexivity.
  intro s0. rewrite iteration_op_ordinals, iteration_delay_ordinals.
  unfold delay_at. rewrite Hf. cbn [flat_map].
  destruct (f (attempts s0)); reflexivity.
Qed.

Lemma loop_delay_ordinals (s : state) :
  delay_ordinals (snd (loop fn options s)) =
  ordinals (attempts s) (length (delay_ordinals (snd (loop fn options s)))).
Proof.
  apply loop_induction with
    (P := fun s rl => delay_ordinals (snd rl) =
                      ordinals (attempts s) (length (delay_ordinals (snd rl))));
    clear s; cbn [fst snd].
  - intros s _. reflexivity.
  - intros s s' r l _ Hit.
    at_iteration Hit (iteration_delay_ordinals fn options s) Hd.
    rewrite Hf in Hd. rewrite Hd. reflexivity.
  - intros s s' l _ Hit IH.
    at_iteration Hit (iteration_delay_ordinals fn options s) Hd.
    rewrite Hf in Hd. apply iteration_continue in Hit.
    unfold delay_ordinals in *. rewrite select_app, Hd.
    cbn [app length ordinals]. rewrite IH at 1. rewrite Hit. reflexivity.
Qed.

(** Which calls of the delay function take place. *)
Lemma loop_delay_called (s : state) (a : Z) :
  In a (delay_ordinals (snd (loop fn options s))) <->
  attempts s <= a <= max_attempts options /\
  forall b, attempts s <= b < a ->
            delay_thrown options b = None /\ retries fn options b = true.
Proof.
  apply loop_induction with
    (P := fun s rl =>
            In a (delay_ordinals (snd rl)) <->
            attempts s <= a <= max_attempts options /\
            forall b, attempts s <= b < a ->
                      delay_thrown options b = None /\ retries fn options b = true);
    clear s; cbn [fst snd].
  - intros s Hgt. cbn. split; [intros [] | intros [H _]; lia].
  - intros s s' r l Hle Hit.
    at_iteration Hit (iteration_delay_ordinals fn options s) Hd.
    at_iteration Hit (iteration_goes_round fn options s) Hg.
    rewrite Hf in Hd. rewrite Hd. split.
    + intros [<-|[]]. split; [lia|]. intros b Hb; lia.
    + intros [Ha Hall].
      destruct (Z.eq_dec a (attempts s)) as [->|Hne]; [left; reflexivity|].
      destruct Hg as [_ Hg]. specialize (Hg (Hall (attempts s) ltac:(lia))).
      discriminate.
  - intros s s' l Hle Hit IH.
    at_iteration Hit (iteration_delay_ordinals fn options s) Hd.
    at_iteration Hit (iteration_goes_round fn options s) Hg.
    rewrite Hf in Hd. destruct Hg as [Hg _]. specialize (Hg eq_refl).
    apply iteration_continue in Hit.
    unfold delay_ordinals in *. rewrite select_app, Hd. cbn [app In].
    rewrite IH, Hit. split.
    + intros [<-|[Ha Hall]].
      * split; [lia|]. intros b Hb; lia.
      * split; [lia|]. intros b Hb.
        destruct (Z.eq_dec b (attempts s)) as [->|Hne]; [exact Hg | apply Hall; lia].
    + intros [Ha Hall].
      destruct (Z.eq_dec a (attempts s)) as [->|Hne]; [left; reflexivity|].
      right. split; [lia|]. intros b Hb. apply Hall. lia.
Qed.

End DelayCalls.

(** ** The hook and the failures, along a run *)

Lemma ordinals_lt (a x : Z) (n : nat) :
  In x (ordinals a n) -> a <= x < a + Z.of_nat n.
Proof.
  revert a; induction n as [|n IH]; intro a; cbn [ordinals]; [intros []|].
  intros [<-|Hin]; [lia|]. specialize (IH _ Hin). lia.
Qed.

Lemma ordinals_NoDup (a : Z) (n : nat) : NoDup (ordinals a n).
Proof.
  revert a; induction n as [|n IH]; intro a; cbn [ordinals]; constructor.
  - intro Hin. apply ordinals_lt in Hin. lia.
  - apply IH.
Qed.

Section Hook.

Context {T : Type} (fn : UseRetryFn T) (options : UseRetryFnOptions).
Context (h : Z -> hook_run) (Hh : onError options = Some h).

Lemma iteration_failure_view (s : state) :
  failure_view (snd (iteration fn options s)) =
  hooked_failures (attempts s) (failures (snd (iteration fn options s))).
Proof.
  unfold failure_view, failures.
  unfold iteration, attempt, handle. rewrite Hh.
  split_iteration; project; unfold catch_error, timer_fires;
    cbn [attempts hooked_failures]; rewrite ?after_skips_attempts; reflexivity.
Qed.

Lemma loop_failure_view (s : state) :
  failure_view (snd (loop fn options s)) =
  hooked_failures (attempts s) (failures (snd (loop fn options s))).
Proof.
  apply loop_induction with
    (P := fun s rl => failure_view (snd rl) =
                      hooked_failures (attempts s) (failures (snd rl)));
    clear s; cbn [fst snd].
  - intros s _. reflexivity.
  - intros s s' r l _ Hit.
    at_iteration Hit (iteration_failure_view s) Hv. exact Hv.
  - intros s s' l _ Hit IH.
    at_iteration Hit (iteration_failure_view s) Hv.
    at_iteration Hit (iteration_failures fn options s) Hf.
    apply iteration_continue in Hit.
    destruct Hf as [_ [_ Hf]]. specialize (Hf eq_refl).
    unfold failure_view, failures in *. rewrite !select_app, Hv, IH, Hit.
    match goal with |- context [select ?g l] => destruct (select g l) as [|e [|e' rest]] end;
      cbn [length] in Hf; try discriminate.
    reflexivity.
Qed.

(** The hook is invoked after the attempts that fail, and after them
    only, with [attempts] one more than theirs. *)
Lemma loop_hook_by_input (s : state) :
  onError_ordinals (snd (loop fn options s)) =
  flat_map (fun a => match attempt_error fn options a with
                     | Some _ => [a + 1]
                     | None => []
                     end)
           (op_ordinals (snd (loop fn options s))).
Proof.
  apply (loop_by_attempts fn options _ _ _ s); try reflexivity.
  intro s0.
  pose proof (@iteration_onError_ordinals T fn options s0 h Hh) as H1.
  pose proof (iteration_failures_by_input fn options s0) as H2.
  pose proof (iteration_op_ordinals fn options s0) as H3.
  unfold onError_ordinals, failures, op_ordinals in *.
  rewrite H1, H2, H3.
  destruct (delay_at options (attempts s0)); cbn [flat_map map]; [|reflexivity].
  destruct (attempt_error fn options (attempts s0)); reflexivity.
Qed.

Lemma loop_hook_called (s : state) (a : Z) :
  In (a + 1) (onError_ordinals (snd (loop fn options s))) <->
  In a (op_ordinals (snd (loop fn options s))) /\
  attempt_error fn options a <> None.
Proof.
  rewrite loop_hook_by_input, in_flat_map. split.
  - intros [b [Hb Hin]].
    destruct (attempt_error fn options b) as [err|] eqn:E; [|destruct Hin].
    destruct Hin as [Heq|[]]. assert (b = a) as -> by lia.
    split; [exact Hb|]. rewrite E. discriminate.
  - intros [Hin Hne]. exists a. split; [exact Hin|].
    destruct (attempt_error fn options a); [left; reflexivity | contradiction].
Qed.

End Hook.

(** * The claims *)

(** ** C10: a non-positive [maxAttempts] *)

(** C10. If [maxAttempts] is zero or less, the loop body never runs:
    the log holds nothing but the exit of the loop, so the operation is
    never invoked and no delay is awaited, and the call fails by
    throwing [null], the initial value of [lastError], which is no
    [Error] object. *)
Theorem nonpositive_maxAttempts_throws_null
  (T : Type) (fn : UseRetryFn T) (options : UseRetryFnOptions) :
  max_attempts options <= 0 ->
  useRetryFn fn options = (Rejected Null, [(LoopExit, init_state)]) /\
  op_calls (snd (useRetryFn fn options)) = 0%nat /\
  delays_awaited (snd (useRetryFn fn options)) = 0%nat /\
  (forall e, fst (useRetryFn fn options) <> Rejected (Err e)).
Proof.
  intro Hm. unfold useRetryFn.
  rewrite loop_exit by (cbn [attempts init_state]; lia).
  cbn. repeat split. intros e H; discriminate.
Qed.

(** ** C7: the three readers of the attempt ordinal *)

(** C7. With a delay function [f] and a hook configured, in every
    call, for every [a]:
    - the delay function is called with [attempts] = [a] exactly when
      [a] is allowed and every attempt before it was retried; the
      operation is invoked with [a] exactly when moreover that call of
      the delay function returns, and right after it: both see 1, 2,
      3, ..., the value before the increment;
    - when attempt [a] fails (the operation rejects, or its timer
      fires), the failure is caught and the hook is invoked with
      [a + 1], the value after the increment, and at no other moment:
      the hook sees 2, 3, 4, ..., one for each failure;
    - the delay awaited after the failure of attempt [a], when the
      loop goes round, is the one [f] returned for [a]. *)
Theorem attempt_ordinal_asymmetry
  (T : Type) (fn : UseRetryFn T) (f : Z -> delay_result) (h : Z -> hook_run)
  (m : option Z) (t : option N) :
  let options := mkOptions (Some (DelayFunction f)) (Some h) m t in
  let l := snd (useRetryFn fn options) in
  (forall a, In a (delay_ordinals l) <->
             1 <= a <= max_attempts options /\
             forall b, 1 <= b < a ->
                       delay_thrown options b = None /\ retries fn options b = true) /\
  (forall a, In a (op_ordinals l) <-> takes_place fn options a) /\
  delay_ordinals l = ordinals 1 (length (delay_ordinals l)) /\
  op_ordinals l = ordinals 1 (op_calls l) /\
  op_ordinals l =
    flat_map (fun a => match f a with DelayIs _ => [a] | DelayThrows _ => [] end)
             (delay_ordinals l) /\
  failure_view l =
    flat_map (fun a => match attempt_error fn options a with
                       | Some err => [Catch err; OnErrorCall (a + 1)]
                       | None => []
                       end)
             (op_ordinals l) /\
  onError_ordinals l = ordinals 2 (length (failures l)) /\
  sleeps l =
    flat_map (fun a => match f a with
                       | DelayIs d => if retries fn options a then [d] else []
                       | DelayThrows _ => []
                       end)
             (op_ordinals l) /\
  (delays_awaited l <= length (failures l) <= op_calls l)%nat /\
  (op_calls l <= length (failures l) + 1)%nat.
Proof.
  intros options l. subst l. unfold useRetryFn.
  split; [|split; [|split; [|split; [|split; [|split; [|split; [|split]]]]]]].
  - intro a. apply (@loop_delay_called T fn options f eq_refl init_state a).
  - intro a. apply (loop_takes_place fn options init_state a).
  - apply (@loop_delay_ordinals T fn options f eq_refl init_state).
  - apply (loop_op_ordinals fn options init_state).
  - apply (@loop_delay_then_op T fn options f eq_refl init_state).
  - apply (loop_failure_events fn options init_state).
  - apply (@loop_onError_ordinals T fn options init_state h). reflexivity.
  - apply (loop_delay_awaited fn options init_state).
  - apply (loop_counts fn options init_state).
Qed.

(** ** C6: the hook runs once for every failure *)

(** C6 as stated fails in its last clause.  One attempt allowed, which
    fails: the hook is invoked once, with [attempts] = 2, while one
    failure has been observed. *)
Lemma hook_sees_failures_plus_one :
  let run := useRetryFn always_fails
               (mkOptions None (Some silent_hook) (Some 1) None) in
  failures (snd run) = [attempt_failed 1] /\
  length (failures (snd run)) = 1%nat /\
  onError_ordinals (snd run) = [2].
Proof.
  cbv zeta. repeat split; vm_compute; reflexivity.
Qed.

(** C6, as amended.  With a hook configured, in every call: an attempt
    takes place exactly when it is allowed, its delay is computed and
    every attempt before it was retried; for each attempt [a] that
    takes place, if it fails (the operation rejects, or its timer
    fires) the failure is caught and then the hook is invoked, once,
    whatever follows (a retry, a skip-termination, the exhaustion of
    the attempts), and if it does not fail the hook is not invoked for
    it.  The hook for the failure of attempt [a] receives [attempts] =
    [a + 1]; as every attempt before a failure is a failure too, this
    is the count of failures so far plus one: the hook invocations see
    2, 3, 4, ... *)
Theorem onError_once_per_failure
  (T : Type) (fn : UseRetryFn T) (d : option delay_option) (h : Z -> hook_run)
  (m : option Z) (t : option N) :
  let options := mkOptions d (Some h) m t in
  let l := snd (useRetryFn fn options) in
  (forall a, In a (op_ordinals l) <-> takes_place fn options a) /\
  op_ordinals l = ordinals 1 (op_calls l) /\
  failure_view l =
    flat_map (fun a => match attempt_error fn options a with
                       | Some err => [Catch err; OnErrorCall (a + 1)]
                       | None => []
                       end)
             (op_ordinals l) /\
  (forall a, In (a + 1) (onError_ordinals l) <->
             In a (op_ordinals l) /\ attempt_error fn options a <> None) /\
  NoDup (onError_ordinals l) /\
  failure_view l = hooked_failures 1 (failures l) /\
  onError_ordinals l = ordinals 2 (length (failures l)).
Proof.
  intros options l. subst l. unfold useRetryFn.
  split; [|split; [|split; [|split; [|split; [|split]]]]].
  - intro a. apply (loop_takes_place fn options init_state a).
  - apply (loop_op_ordinals fn options init_state).
  - apply (loop_failure_events fn options init_state).
  - intro a. apply (@loop_hook_called T fn options h eq_refl init_state a).
  - rewrite (@loop_onError_ordinals T fn options init_state h eq_refl).
    apply ordinals_NoDup.
  - apply (@loop_failure_view T fn options h eq_refl init_state).
  - apply (@loop_onError_ordinals T fn options init_state h). reflexivity.
Qed.

(** ** C9: a hook that throws *)

Section HookThrows.

Context {T : Type} (fn : UseRetryFn T) (options : UseRetryFnOptions).
Context (h : Z -> hook_run) (Hh : onError options = Some h).

Lemma iteration_hook_ordinal (s : state) (a : Z) :
  In a (onError_ordinals (snd (iteration fn options s))) -> a = attempts s + 1.
Proof.
  rewrite (@iteration_onError_ordinals T fn options s h Hh).
  rewrite in_map_iff. intros [e [He _]]. symmetry; exact He.
Qed.

(** An iteration in which the hook is invoked has invoked the
    operation. *)
Lemma iteration_hook_attempt (s : state) :
  onError_ordinals (snd (iteration fn options s)) <> [] ->
  op_ordinals (snd (iteration fn options s)) = [attempts s].
Proof.
  rewrite iteration_op_ordinals.
  unfold onError_ordinals, iteration. cbn [attempts].
  destruct (delay_at options (attempts s)) as [d|dthrown]; [reflexivity|].
  cbn [snd]. unfold delay_log. destruct (delay options) as [[?|?]|]; project;
    intro H; exfalso; apply H; reflexivity.
Qed.

Lemma iteration_hook_throws (s : state) (thrown : jsval) :
  hook_throws (h (attempts s + 1)) = Some thrown ->
  onError_ordinals (snd (iteration fn options s)) <> [] ->
  fst (fst (iteration fn options s)) = Exit (Rejected thrown) /\
  exists l1 s1,
    snd (iteration fn options s) =
    l1 ++ (OnErrorCall (attempts s + 1), s1)
       :: skips_log (hook_skips (h (attempts s + 1))) s1.
Proof.
  intros Hthrow. unfold onError_ordinals.
  unfold iteration, attempt, handle. rewrite Hh.
  unfold catch_error, timer_fires; cbn [attempts].
  rewrite !after_skips_attempts; cbn [attempts]; rewrite Hthrow.
  destruct (delay_at options (attempts s)) as [d|dthrown]; cbn [fst snd];
    [|project; unfold delay_log; destruct (delay options) as [[?|?]|]; project;
      intro H; exfalso; apply H; reflexivity].
  destruct (race options _); cbn [fst snd].
  - project. unfold delay_log. destruct (delay options) as [[?|?]|]; project;
      intro H; exfalso; apply H; reflexivity.
  - intros _. split; [reflexivity|]. eexists. eexists. reflexivity.
  - intros _. split; [reflexivity|]. eexists. eexists. reflexivity.
  - project. unfold delay_log. destruct (delay options) as [[?|?]|]; project;
      intro H; exfalso; apply H; reflexivity.
Qed.

Lemma loop_hook_throws (s : state) (a : Z) (thrown : jsval) :
  In a (onError_ordinals (snd (loop fn options s))) ->
  hook_throws (h a) = Some thrown ->
  fst (loop fn options s) = Rejected thrown /\
  (exists l1 s1,
     snd (loop fn options s) =
     l1 ++ (OnErrorCall a, s1) :: skips_log (hook_skips (h a)) s1) /\
  Z.of_nat (op_calls (snd (loop fn options s))) = a - attempts s /\
  Z.of_nat (delays_awaited (snd (loop fn options s))) = a - attempts s - 1.
Proof.
  intros Hin Hthrow. revert Hin.
  apply loop_induction with
    (P := fun s rl =>
            In a (onError_ordinals (snd rl)) ->
            fst rl = Rejected thrown /\
            (exists l1 s1,
               snd rl = l1 ++ (OnErrorCall a, s1) :: skips_log (hook_skips (h a)) s1) /\
            Z.of_nat (op_calls (snd rl)) = a - attempts s /\
            Z.of_nat (delays_awaited (snd rl)) = a - attempts s - 1);
    clear s; cbn [fst snd].
  - intros s _ [].
  - intros s s' r l _ Hit Hin.
    at_iteration Hit (iteration_hook_ordinal s a) Ha.
    specialize (Ha Hin). subst a.
    at_iteration Hit (iteration_hook_throws s Hthrow) Ht.
    destruct Ht as [Hr Hl]; [intro E; rewrite E in Hin; exact Hin|].
    at_iteration Hit (iteration_hook_attempt s) Ho.
    at_iteration Hit (iteration_sleeps_length fn options s) Hs.
    injection Hr as ->.
    unfold op_calls, delays_awaited. rewrite Ho, Hs by (intro E; rewrite E in Hin; exact Hin).
    cbn [length]. repeat split; [exact Hl | lia | lia].
  - intros s s' l _ Hit IH Hin.
    at_iteration Hit (iteration_hook_ordinal s a) Ha.
    at_iteration Hit (iteration_op_ordinals_continue fn options s) Ho.
    at_iteration Hit (iteration_sleeps_length fn options s) Hs.
    specialize (Ho eq_refl).
    unfold onError_ordinals in Hin. rewrite select_app in Hin.
    apply in_app_or in Hin. destruct Hin as [Hin|Hin].
    + specialize (Ha Hin). subst a.
      at_iteration Hit (iteration_hook_throws s Hthrow) Ht.
      destruct Ht as [Hr _]; [intro E; unfold onError_ordinals in E;
                              rewrite E in Hin; exact Hin|].
      discriminate.
    + clear Ha. apply iteration_continue in Hit.
      destruct (IH Hin) as [Hr [[l1 [s1 Hl]] [Hn Hd]]].
      split; [exact Hr|]. split.
      * exists (l ++ l1), s1. rewrite Hl, app_assoc. reflexivity.
      * unfold op_calls, delays_awaited in *. unfold op_ordinals, sleeps in *.
        rewrite !select_app, !length_app, Ho, Hs. cbn [length]. lia.
Qed.

End HookThrows.

(** C9. If the hook is invoked with [attempts] = [a] and throws, the
    call fails with the value the hook threw, whatever the error of the
    attempt and whatever was asked of the skip capability.  The log
    ends with that invocation of the hook and the calls it made to the
    capability: the test of [skipRetry] is not reached, no delay is
    awaited and no attempt follows.  The operation has then been
    invoked [a - 1] times and [a - 2] delays have been awaited. *)
Theorem onError_exception_propagates
  (T : Type) (fn : UseRetryFn T) (d : option delay_option) (h : Z -> hook_run)
  (m : option Z) (t : option N) (a : Z) (thrown : jsval) :
  let run := useRetryFn fn (mkOptions d (Some h) m t) in
  In a (onError_ordinals (snd run)) ->
  hook_throws (h a) = Some thrown ->
  fst run = Rejected thrown /\
  (exists l1 s1,
     snd run = l1 ++ (OnErrorCall a, s1) :: skips_log (hook_skips (h a)) s1) /\
  Z.of_nat (op_calls (snd run)) = a - 1 /\
  Z.of_nat (delays_awaited (snd run)) = a - 2.
Proof.
  intros run Hin Hthrow. subst run. unfold useRetryFn in *.
  set (options := mkOptions d (Some h) m t) in *.
  destruct (@loop_hook_throws T fn options h eq_refl init_state a thrown Hin Hthrow)
    as [Hr [Hl [Hn Hd]]].
  cbn [attempts init_state] in Hn, Hd.
  repeat split; [exact Hr | exact Hl | lia | lia].
Qed.

(** ** C8: the counter and the latch *)

Lemma chain_app (R : state -> entry -> Prop) (s : state) (l1 l2 : log) :
  chain R s (l1 ++ l2) <-> chain R s l1 /\ chain R (last_state s l1) l2.
Proof.
  revert s; induction l1 as [|e l1 IH]; intro s.
  - cbn. tauto.
  - cbn [app chain last_state]. rewrite IH. tauto.
Qed.

Lemma last_state_app (s : state) (l1 l2 : log) :
  last_state s (l1 ++ l2) = last_state (last_state s l1) l2.
Proof.
  revert s; induction l1 as [|e l1 IH]; intro s; [reflexivity|].
  cbn [app last_state]. apply IH.
Qed.

Lemma runs_nil (s : state) : runs s [] s.
Proof. split; reflexivity. Qed.

Lemma runs_app (s s1 s2 : state) (l1 l2 : log) :
  runs s l1 s1 -> runs s1 l2 s2 -> runs s (l1 ++ l2) s2.
Proof.
  intros [Hc1 Hl1] [Hc2 Hl2]. split.
  - apply chain_app. rewrite Hl1. split; assumption.
  - rewrite last_state_app, Hl1. exact Hl2.
Qed.

Lemma runs_one (s s' : state) (ev : event) :
  step_invariant s (ev, s') -> runs s [(ev, s')] s'.
Proof. intro H. split; [split; [exact H | exact I] | reflexivity]. Qed.

Lemma runs_skips (errs : list jsval) (s : state) :
  runs s (skips_log errs s) (after_skips errs s).
Proof.
  revert s; induction errs as [|err rest IH]; intro s.
  - apply runs_nil.
  - cbn [skips_log after_skips].
    apply (@runs_app s (requestSkip err s) _ [_] _); [|apply IH].
    apply runs_one. repeat split; cbn [fst snd]; try reflexivity.
    intros err0 [= <-]. reflexivity.
Qed.

Lemma runs_cons (s s' s2 : state) (ev : event) (l : log) :
  step_invariant s (ev, s') -> runs s' l s2 -> runs s ((ev, s') :: l) s2.
Proof. intros H Hl. apply (@runs_app s s' s2 [_] l); [apply runs_one|]; assumption. Qed.

Ltac step_ok :=
  repeat split; cbn [fst snd attempts skipRetry catch_error timer_fires];
  try reflexivity; try congruence; try (intros; discriminate).

Ltac runs_through :=
  repeat first [ apply runs_nil
               | apply runs_skips
               | eapply runs_cons; [step_ok|]
               | eapply runs_app ].

Section Invariants.

Context {T : Type} (fn : UseRetryFn T) (options : UseRetryFnOptions).

Lemma iteration_runs (s : state) :
  skipRetry s = false ->
  runs s (snd (iteration fn options s)) (snd (fst (iteration fn options s))) /\
  (fst (fst (iteration fn options s)) = Continue ->
   skipRetry (snd (fst (iteration fn options s))) = false).
Proof.
  intro Hs. split_iteration; cbn [fst snd]; (split; [runs_through|]);
    intros; (discriminate || assumption).
Qed.

Lemma skips_log_attempts (errs : list jsval) (s : state) (lo hi : Z) :
  lo <= attempts s <= hi ->
  Forall (fun e : entry => lo <= attempts (snd e) <= hi) (skips_log errs s).
Proof.
  revert s; induction errs as [|err rest IH]; intros s Hs; cbn [skips_log].
  - constructor.
  - constructor; [exact Hs | apply IH; exact Hs].
Qed.

Lemma iteration_attempts_bounds (s : state) :
  Forall (fun e : entry => attempts s <= attempts (snd e) <= attempts s + 1)
         (snd (iteration fn options s)).
Proof.
  split_iteration; cbn [fst snd];
    repeat first [ apply Forall_nil
                 | apply Forall_app; split
                 | apply Forall_cons
                 | apply skips_log_attempts ];
    unfold catch_error, timer_fires; cbn [fst snd attempts];
    rewrite ?after_skips_attempts; cbn [attempts]; lia.
Qed.

Lemma loop_chain (s : state) :
  skipRetry s = false ->
  chain step_invariant s (snd (loop fn options s)).
Proof.
  apply loop_induction with
    (P := fun s rl => skipRetry s = false -> chain step_invariant s (snd rl));
    clear s; cbn [fst snd].
  - intros s _ Hs. cbn. step_ok.
  - intros s s' r l Hle Hit Hs.
    at_iteration Hit (iteration_runs s Hs) Hr. apply Hr.
  - intros s s' l Hle Hit IH Hs.
    at_iteration Hit (iteration_runs s Hs) Hr.
    destruct Hr as [[Hc Hl] Hk]. specialize (Hk eq_refl).
    apply chain_app. rewrite Hl. split; [exact Hc | exact (IH Hk)].
Qed.

Lemma loop_invariants (s : state) :
  skipRetry s = false ->
  attempts s <= max_attempts options + 1 ->
  chain step_invariant s (snd (loop fn options s)) /\
  Forall (fun e : entry => attempts s <= attempts (snd e) <= max_attempts options + 1)
         (snd (loop fn options s)).
Proof.
  apply loop_induction with
    (P := fun s rl =>
            skipRetry s = false ->
            attempts s <= max_attempts options + 1 ->
            chain step_invariant s (snd rl) /\
            Forall (fun e : entry =>
                      attempts s <= attempts (snd e) <= max_attempts options + 1)
                   (snd rl));
    clear s; cbn [fst snd].
  - intros s _ Hs Hb. split.
    + cbn. step_ok.
    + repeat constructor; cbn [snd]; lia.
  - intros s s' r l Hle Hit Hs _.
    at_iteration Hit (iteration_runs s Hs) Hr.
    at_iteration Hit (iteration_attempts_bounds s) Hb.
    split; [apply Hr|].
    eapply Forall_impl; [|exact Hb]. cbn beta. intros e He. lia.
  - intros s s' l Hle Hit IH Hs _.
    at_iteration Hit (iteration_runs s Hs) Hr.
    at_iteration Hit (iteration_attempts_bounds s) Hb.
    destruct Hr as [[Hc Hl] Hk]. specialize (Hk eq_refl).
    apply iteration_continue in Hit.
    destruct (IH Hk ltac:(lia)) as [IHc IHb].
    split.
    + apply chain_app. rewrite Hl. split; assumption.
    + apply Forall_app. split.
      * eapply Forall_impl; [|exact Hb]. cbn beta. intros e He. lia.
      * eapply Forall_impl; [|exact IHb]. cbn beta. intros e He. lia.
Qed.

End Invariants.

Lemma chain_latched (s : state) (l : log) :
  chain step_invariant s l ->
  skipRetry s = true ->
  Forall (fun e : entry => skipRetry (snd e) = true) l.
Proof.
  revert s; induction l as [|e l IH]; intros s Hc Hs.
  - constructor.
  - destruct Hc as [[_ [Hlatch _]] Hc]. specialize (Hlatch Hs).
    constructor; [exact Hlatch | exact (IH _ Hc Hlatch)].
Qed.

(** C8 as stated fails in its bound.  With [maxAttempts: -1] the loop
    is left at once with [attempts] = 1, above [maxAttempts + 1] = 0. *)
Lemma attempts_exceed_negative_maxAttempts :
  let options := mkOptions None None (Some (-1)) None in
  useRetryFn always_fails options = (Rejected Null, [(LoopExit, init_state)]) /\
  attempts init_state = 1 /\
  max_attempts options + 1 = 0 /\
  (attempts init_state <=? max_attempts options + 1) = false.
Proof.
  cbv zeta. repeat split; vm_compute; reflexivity.
Qed.

(** C8, as amended.  In every call [attempts] starts at 1; from one
    entry of the log to the next it never decreases, being incremented
    by one when a failure is caught and by nothing else; a failure is
    caught for each attempt that takes place and fails (the operation
    rejects, or its timer fires), once, and for nothing else.  With
    [maxAttempts] not negative, [attempts] never exceeds
    [maxAttempts + 1], at the exit of the loop or anywhere else.  Once
    [skipRetry] is latched, by the capability or by the timer, it is
    latched in every later state of the call.  Calling the capability
    again only replaces [customError] by the new argument. *)
Theorem attempts_counter_and_skip_latch
  (T : Type) (fn : UseRetryFn T) (options : UseRetryFnOptions) :
  let l := snd (useRetryFn fn options) in
  attempts init_state = 1 /\
  chain step_invariant init_state l /\
  (forall a, In a (op_ordinals l) <-> takes_place fn options a) /\
  failures l =
    flat_map (fun a => match attempt_error fn options a with
                       | Some err => [err]
                       | None => []
                       end)
             (op_ordinals l) /\
  (0 <= max_attempts options ->
   Forall (fun e : entry => 1 <= attempts (snd e) <= max_attempts options + 1) l) /\
  (forall l1 e l2,
     l = l1 ++ e :: l2 -> skipRetry (snd e) = true ->
     Forall (fun e' : entry => skipRetry (snd e') = true) l2) /\
  (forall s err err',
     requestSkip err' (requestSkip err s) =
     mkState (attempts s) (lastError s) (nullish err' Null) true).
Proof.
  intro l. subst l. unfold useRetryFn.
  pose proof (loop_chain fn options init_state eq_refl) as Hc.
  split; [reflexivity|]. split; [exact Hc|]. split; [|split; [|split; [|split]]].
  - intro a. apply (loop_takes_place fn options init_state a).
  - apply (loop_failures_by_input fn options init_state).
  - intro Hm.
    destruct (loop_invariants fn options init_state eq_refl) as [_ Hb].
    { cbn [attempts init_state]. lia. }
    exact Hb.
  - intros l1 e l2 El He. rewrite El in Hc.
    apply chain_app in Hc. destruct Hc as [_ Hc].
    destruct Hc as [_ Hc]. exact (chain_latched _ _ Hc He).
  - intros s err err'. reflexivity.
Qed.

(** The capability called on the second of five attempts: the latch
    holds from that call to the end of the log. *)
Lemma attempts_counter_and_skip_latch_witness :
  let l := snd (useRetryFn skips_on_second no_options) in
  Forall (fun e : entry => 1 <= attempts (snd e) <= 5 + 1) l /\
  exists l1 e l2,
    l = l1 ++ e :: l2 /\ fst e = SkipCall (Err (mkError "Custom error"%string)) /\
    l2 <> [] /\
    Forall (fun e' : entry => skipRetry (snd e') = true) l2.
Proof.
  cbv zeta.
  destruct (@attempts_counter_and_skip_latch string skips_on_second no_options)
    as [_ [_ [_ [_ [Hb [Hl _]]]]]].
  split; [apply Hb; cbn; lia|].
  eexists (firstn 7 (snd (useRetryFn skips_on_second no_options))).
  eexists (nth 7 (snd (useRetryFn skips_on_second no_options)) (LoopExit, init_state)).
  eexists (skipn 8 (snd (useRetryFn skips_on_second no_options))).
  split; [vm_compute; reflexivity|]. split; [vm_compute; reflexivity|].
  split; [vm_compute; discriminate|].
  apply (Hl (firstn 7 (snd (useRetryFn skips_on_second no_options)))
            (nth 7 (snd (useRetryFn skips_on_second no_options))
                 (LoopExit, init_state)));
    vm_compute; reflexivity.
Defined.

(** ** Attempts that are retried *)

Section Scenarios.

Context {T : Type} (fn : UseRetryFn T) (options : UseRetryFnOptions).

Lemma rejects_in_time (a : Z) (d : N) (err : jsval) :
  op_settle (fn a) = Rejects d err -> timed_out fn options a = false ->
  race options (op_settle (fn a)) = Failed err.
Proof.
  unfold timed_out. intros ->. unfold race.
  destruct (timer options); [destruct (_ <=? _)%N|]; congruence.
Qed.

Lemma resolves_in_time (a : Z) (d : N) (v : T) :
  op_settle (fn a) = Resolves d v -> timed_out fn options a = false ->
  race options (op_settle (fn a)) = Fulfilled v.
Proof.
  unfold timed_out. intros ->. unfold race.
  destruct (timer options); [destruct (_ <=? _)%N|]; congruence.
Qed.

Lemma delay_returns (a : Z) :
  delay_thrown options a = None -> exists d, delay_at options a = DelayIs d.
Proof.
  unfold delay_thrown. destruct (delay_at options a) as [d|thrown];
    [intros _; exists d; reflexivity | discriminate].
Qed.

Lemma iteration_retried (s : state) (err : jsval) :
  retried fn options (attempts s) err ->
  fst (iteration fn options s) =
    (Continue, mkState (attempts s + 1) err Null false) /\
  failures (snd (iteration fn options s)) = [err].
Proof.
  intros [[d Hd] [Ht [Hs [Hh Hdl]]]].
  apply app_eq_nil in Hs. destruct Hs as [Hos Hhs].
  destruct (delay_returns _ Hdl) as [dl Edl].
  unfold hook_skip_calls in Hhs. unfold hook_thrown in Hh.
  unfold failures, iteration, attempt, handle, decide. cbn [attempts].
  rewrite Edl, (rejects_in_time _ Hd Ht), Hos. cbn [after_skips skips_log].
  unfold catch_error; cbn [attempts customError skipRetry].
  destruct (onError options) as [h|].
  - rewrite Hh, Hhs. cbn [after_skips skips_log skipRetry fst snd].
    split; [reflexivity|].
    unfold delay_log. destruct (delay options) as [[?|?]|]; project; reflexivity.
  - cbn [skipRetry fst snd]. split; [reflexivity|].
    unfold delay_log. destruct (delay options) as [[?|?]|]; project; reflexivity.
Qed.

Lemma iteration_continue_tail (s : state) :
  fst (fst (iteration fn options s)) = Continue ->
  exists l0 d,
    snd (iteration fn options s) =
    l0 ++ [(Sleep d, snd (fst (iteration fn options s)))].
Proof.
  unfold iteration, attempt, handle, decide; cbn [attempts].
  repeat match goal with
         | |- context [match delay_at ?o ?a with _ => _ end] =>
             destruct (delay_at o a)
         | |- context [match race ?o ?c with _ => _ end] => destruct (race o c)
         | |- context [match onError ?o with _ => _ end] => destruct (onError o)
         | |- context [match hook_throws ?h with _ => _ end] =>
             destruct (hook_throws h)
         | |- context [if skipRetry ?s then _ else _] => destruct (skipRetry s)
         end; cbn [fst snd]; try discriminate; intros _;
    match goal with
    | |- exists l0 d0, ?l ++ [?x; (Sleep ?d, ?y)] = _ =>
        exists (l ++ [x]), d; exact (app_assoc l [x] [(Sleep d, y)])
    end.
Qed.

End Scenarios.

Section Runs.

Context {T : Type} (fn : UseRetryFn T) (options : UseRetryFnOptions).

Local Abbreviation max := (max_attempts options).

Lemma loop_retried (s : state) (err : jsval) :
  attempts s <= max ->
  retried fn options (attempts s) err ->
  exists l,
    loop fn options s =
    (fst (loop fn options (mkState (attempts s + 1) err Null false)),
     l ++ snd (loop fn options (mkState (attempts s + 1) err Null false))) /\
    op_ordinals l = [attempts s] /\
    length (sleeps l) = 1%nat /\
    failures l = [err] /\
    exists l0 d, l = l0 ++ [(Sleep d, mkState (attempts s + 1) err Null false)].
Proof.
  intros Hle Hr.
  destruct (iteration_retried s Hr) as [Hit Hf].
  pose proof (iteration_op_ordinals_continue fn options s) as Ho.
  pose proof (iteration_sleeps_length fn options s) as Hs.
  pose proof (iteration_continue_tail fn options s) as Htail.
  destruct (iteration fn options s) as [[f s'] l] eqn:E.
  cbn [fst snd] in *. injection Hit as -> ->.
  exists l. rewrite (loop_continue fn options s Hle E).
  repeat split; try assumption; [apply Ho | apply Htail]; reflexivity.
Qed.

(** A run of failures that are all retried, up to the exhaustion of
    the attempts: [n] attempts are left when the loop is in state [s]. *)
Lemma loop_exhausts (n : nat) (s : state) (errs : Z -> jsval) :
  attempts s + Z.of_nat n = max + 1 ->
  (forall a, attempts s <= a <= max -> retried fn options a (errs a)) ->
  let run := loop fn options s in
  fst run = Rejected (match n with O => lastError s | S _ => errs max end) /\
  op_calls (snd run) = n /\
  delays_awaited (snd run) = n /\
  (n <> O -> exists l0 d sf, snd run = l0 ++ [(Sleep d, sf); (LoopExit, sf)]).
Proof.
  revert s; induction n as [|n IH]; intros s Hn Hall run; subst run.
  - rewrite loop_exit by lia. cbn. repeat split. intro H; contradiction.
  - assert (attempts s <= max) as Hle by lia.
    destruct (loop_retried s Hle (Hall (attempts s) ltac:(lia)))
      as [l [El [Ho [Hs [Hf [l0 [d0 Etail]]]]]]].
    set (s' := mkState (attempts s + 1) (errs (attempts s)) Null false) in *.
    assert (attempts s' + Z.of_nat n = max + 1) as Hn' by (cbn [attempts s']; lia).
    assert (forall a, attempts s' <= a <= max -> retried fn options a (errs a))
      as Hall' by (intros a Ha; apply Hall; cbn [attempts s'] in Ha; lia).
    destruct (IH s' Hn' Hall') as [Hr [Hc [Hd Ht]]].
    rewrite El. cbn [fst snd]. split; [|split; [|split]].
    + rewrite Hr. destruct n; [|reflexivity].
      cbn [lastError s']. replace (attempts s) with max by lia. reflexivity.
    + unfold op_calls in *. unfold op_ordinals in *.
      rewrite select_app, length_app, Ho, Hc. reflexivity.
    + unfold delays_awaited in *. unfold sleeps in *.
      rewrite select_app, length_app, Hs, Hd. reflexivity.
    + intros _. destruct n as [|n].
      * rewrite loop_exit by (cbn [attempts s']; lia). cbn [snd].
        exists l0, d0, s'.
        rewrite Etail, <- app_assoc. reflexivity.
      * destruct (Ht ltac:(discriminate)) as [l1 [d [sf E1]]].
        exists (l ++ l1), d, sf. rewrite E1, app_assoc. reflexivity.
Qed.

(** A run of [k] failures that are all retried, then a success. *)
Lemma loop_succeeds (k : nat) (s : state) (v : T) :
  attempts s + Z.of_nat k <= max ->
  (forall a, attempts s <= a < attempts s + Z.of_nat k ->
             exists err, retried fn options a err) ->
  (exists d, op_settle (fn (attempts s + Z.of_nat k)) = Resolves d v) ->
  timed_out fn options (attempts s + Z.of_nat k) = false ->
  delay_thrown options (attempts s + Z.of_nat k) = None ->
  let run := loop fn options s in
  fst run = Resolved v /\
  op_calls (snd run) = S k /\
  delays_awaited (snd run) = k.
Proof.
  revert s; induction k as [|k IH]; intros s Hk Hall [d Hd] Ht Hdl run; subst run.
  - rewrite Z.add_0_r in *.
    destruct (@delay_returns options _ Hdl) as [dl Edl].
    pose proof (iteration_op_ordinals fn options s) as Ho.
    pose proof (iteration_sleeps_length fn options s) as Hs.
    assert (fst (fst (iteration fn options s)) = Exit (Resolved v)) as Hf.
    { unfold iteration, attempt. cbn [attempts].
      rewrite Edl, (resolves_in_time fn options _ Hd Ht). reflexivity. }
    rewrite Edl in Ho.
    destruct (iteration fn options s) as [[f s'] l] eqn:E.
    cbn [fst snd] in *. subst f.
    rewrite (loop_return fn options s ltac:(lia) E). cbn [fst snd].
    unfold op_calls, delays_awaited. rewrite Ho, Hs. repeat split.
  - destruct (Hall (attempts s) ltac:(lia)) as [err Hr].
    destruct (loop_retried s ltac:(lia) Hr) as [l [El [Ho [Hs _]]]].
    set (s' := mkState (attempts s + 1) err Null false) in *.
    assert (attempts s' + Z.of_nat k = attempts s + Z.of_nat (S k)) as Ea
      by (cbn [attempts s']; lia).
    destruct (IH s') as [Hr' [Hc Hdl']].
    + lia.
    + intros a Ha. apply Hall. cbn [attempts s'] in Ha. lia.
    + exists d. rewrite Ea. exact Hd.
    + rewrite Ea. exact Ht.
    + rewrite Ea. exact Hdl.
    + rewrite El. cbn [fst snd]. split; [exact Hr'|]. split.
      * unfold op_calls in *. unfold op_ordinals in *.
        rewrite select_app, length_app, Ho, Hc. reflexivity.
      * unfold delays_awaited in *. unfold sleeps in *.
        rewrite select_app, length_app, Hs, Hdl'. reflexivity.
Qed.

End Runs.

(** ** C1: failures, then a success *)

(** C1, as amended.  Let the operation fail on its first [k]
    invocations and succeed on invocation [k + 1], with
    [k < maxAttempts].  If no timer fires before the operation settles
    in these attempts, the delay function, if there is one, returns in
    each of them, the skip capability is not called during the [k]
    failing attempts, by the operation or by the hook, and the hook
    returns normally, then the call resolves with the value of the
    success, the operation is invoked exactly [k + 1] times and the
    delay is awaited exactly [k] times; for [k = 0], once and never. *)
Theorem retries_until_success
  (T : Type) (fn : UseRetryFn T) (options : UseRetryFnOptions)
  (k : nat) (v : T) :
  Z.of_nat k < max_attempts options ->
  (forall a, 1 <= a <= Z.of_nat k -> exists d err, op_settle (fn a) = Rejects d err) ->
  (exists d, op_settle (fn (Z.of_nat k + 1)) = Resolves d v) ->
  (forall a, 1 <= a <= Z.of_nat k + 1 -> timed_out fn options a = false) ->
  (forall a, 1 <= a <= Z.of_nat k + 1 -> delay_thrown options a = None) ->
  (forall a, 1 <= a <= Z.of_nat k -> skip_calls fn options a = []) ->
  (forall a, 1 <= a <= Z.of_nat k -> hook_thrown options a = None) ->
  let run := useRetryFn fn options in
  fst run = Resolved v /\
  op_calls (snd run) = S k /\
  delays_awaited (snd run) = k.
Proof.
  intros Hk Hfail Hok Htimer Hdelay Hskip Hhook run. subst run. unfold useRetryFn.
  apply loop_succeeds; cbn [attempts init_state].
  - lia.
  - intros a Ha. destruct (Hfail a ltac:(lia)) as [d [err Hd]].
    exists err. repeat split.
    + exists d; exact Hd.
    + apply Htimer; lia.
    + apply Hskip; lia.
    + apply Hhook; lia.
    + apply Hdelay; lia.
  - destruct Hok as [d Hd]. exists d. rewrite Z.add_comm. exact Hd.
  - rewrite Z.add_comm. apply Htimer. lia.
  - rewrite Z.add_comm. apply Hdelay. lia.
Qed.

(** The operation that fails on attempts 1 to 3 and succeeds on the
    fourth, with the default options: four invocations, three delays. *)
Lemma retries_until_success_witness :
  fst (useRetryFn (fails_until 3) no_options) = Resolved "success"%string /\
  op_calls (snd (useRetryFn (fails_until 3) no_options)) = 4%nat /\
  delays_awaited (snd (useRetryFn (fails_until 3) no_options)) = 3%nat.
Proof.
  apply (@retries_until_success string (fails_until 3) no_options 3 "success"%string).
  - reflexivity.
  - intros a Ha. exists 0%N, (attempt_failed a). unfold fails_until.
    destruct (Z.leb_spec a 3); [reflexivity | lia].
  - exists 0%N. reflexivity.
  - intros a Ha. unfold timed_out, race, fails_until. cbn [timer timeout no_options].
    destruct (a <=? 3); reflexivity.
  - intros a Ha. reflexivity.
  - intros a Ha. unfold skip_calls, hook_skip_calls, fails_until.
    cbn [onError no_options]. destruct (a <=? 3); reflexivity.
  - intros a Ha. reflexivity.
Defined.

(** C1 as stated fails.  An operation that succeeds on its first
    invocation, but after the timer of the attempt: the call fails with
    the timeout error.  An operation that fails three times and then
    succeeds, with a hook that calls the capability: the call fails
    with the first error, after one invocation and no delay.  The same
    operation with a delay function that throws when it is asked for
    the second delay: the call fails with what the delay function
    threw, after one invocation and one delay. *)
Lemma success_lost_to_timer_or_skip :
  (let options := mkOptions None None None (Some 1000%N) in
   0 < max_attempts options /\
   op_settle (slow_success 1) = Resolves 2000 "success"%string /\
   fst (useRetryFn slow_success options) = Rejected timeout_error /\
   fst (useRetryFn slow_success options) <> Resolved "success"%string) /\
  (let options := mkOptions None (Some skipping_hook) None None in
   3 < max_attempts options /\
   op_settle (fails_until 3 1) = Rejects 0 (attempt_failed 1) /\
   op_settle (fails_until 3 2) = Rejects 0 (attempt_failed 2) /\
   op_settle (fails_until 3 3) = Rejects 0 (attempt_failed 3) /\
   op_settle (fails_until 3 4) = Resolves 0 "success"%string /\
   fst (useRetryFn (fails_until 3) options) = Rejected (attempt_failed 1) /\
   op_calls (snd (useRetryFn (fails_until 3) options)) = 1%nat /\
   delays_awaited (snd (useRetryFn (fails_until 3) options)) = 0%nat) /\
  (let options :=
     mkOptions (Some (DelayFunction delay_throws_on_second)) None None None in
   3 < max_attempts options /\
   op_settle (fails_until 3 1) = Rejects 0 (attempt_failed 1) /\
   op_settle (fails_until 3 2) = Rejects 0 (attempt_failed 2) /\
   op_settle (fails_until 3 3) = Rejects 0 (attempt_failed 3) /\
   op_settle (fails_until 3 4) = Resolves 0 "success"%string /\
   timed_out (fails_until 3) options 4 = false /\
   skip_calls (fails_until 3) options 1 = [] /\
   skip_calls (fails_until 3) options 2 = [] /\
   skip_calls (fails_until 3) options 3 = [] /\
   fst (useRetryFn (fails_until 3) options)
     = Rejected (Err (mkError "delay failed"%string)) /\
   op_calls (snd (useRetryFn (fails_until 3) options)) = 1%nat /\
   delays_awaited (snd (useRetryFn (fails_until 3) options)) = 1%nat).
Proof.
  split; [|split].
  - cbv zeta. repeat split; try (vm_compute; reflexivity).
    vm_compute. intro H; discriminate.
  - cbv zeta. repeat split; vm_compute; reflexivity.
  - cbv zeta. repeat split; vm_compute; reflexivity.
Qed.

(** ** C2 and C3: an operation that always fails *)

(** C2, as amended.  Let [maxAttempts] be [m], at least 1, and let the
    operation fail on every invocation.  If the skip capability is
    never called, no timer fires before the operation settles, the
    delay function, if there is one, returns every time and the hook
    returns normally, then the call fails with the error of invocation
    [m] and the operation is invoked exactly [m] times. *)
Theorem exhausted_attempts_throw_last_error
  (T : Type) (fn : UseRetryFn T) (options : UseRetryFnOptions)
  (m : Z) (errs : Z -> jsval) :
  max_attempts options = m ->
  1 <= m ->
  (forall a, 1 <= a <= m -> exists d, op_settle (fn a) = Rejects d (errs a)) ->
  (forall a, 1 <= a <= m -> skip_calls fn options a = []) ->
  (forall a, 1 <= a <= m -> timed_out fn options a = false) ->
  (forall a, 1 <= a <= m -> delay_thrown options a = None) ->
  (forall a, 1 <= a <= m -> hook_thrown options a = None) ->
  let run := useRetryFn fn options in
  fst run = Rejected (errs m) /\
  op_calls (snd run) = Z.to_nat m.
Proof.
  intros Hm Hpos Hfail Hskip Htimer Hdelay Hhook run. subst run. unfold useRetryFn.
  destruct (@loop_exhausts T fn options (Z.to_nat m) init_state errs)
    as [Hr [Hc _]].
  - cbn [attempts init_state]. lia.
  - cbn [attempts init_state]. rewrite Hm. intros a Ha.
    repeat split; auto.
  - rewrite Hr, Hc, Hm. split; [|reflexivity].
    destruct (Z.to_nat m) eqn:E; [lia | reflexivity].
Qed.

(** The default of five attempts: the error of the fifth invocation. *)
Lemma exhausted_attempts_throw_last_error_witness :
  max_attempts no_options = 5 /\
  fst (useRetryFn always_fails no_options) = Rejected (attempt_failed 5) /\
  op_calls (snd (useRetryFn always_fails no_options)) = 5%nat.
Proof.
  split; [reflexivity|].
  apply (@exhausted_attempts_throw_last_error
           string always_fails no_options 5 attempt_failed).
  - reflexivity.
  - lia.
  - intros a Ha. exists 0%N. reflexivity.
  - intros a Ha. reflexivity.
  - intros a Ha. reflexivity.
  - intros a Ha. reflexivity.
  - intros a Ha. reflexivity.
Defined.

(** C2 as stated fails.  An operation that always fails, but after the
    timer of the attempt, and never calls the capability: with three
    attempts allowed, the call fails with the timeout error after one
    invocation.  An operation that always fails at once, with a hook
    that throws: the call fails with what the hook threw, after one
    invocation.  The same operation with a delay function that throws:
    the call fails with what the delay function threw, and the
    operation is never invoked. *)
Lemma last_error_lost_to_timer_or_hook :
  (let options := mkOptions None None (Some 3) (Some 1000%N) in
   max_attempts options = 3 /\
   op_settle (slow_failure 3) = Rejects 2000 (Err (mkError "boom"%string)) /\
   skip_calls slow_failure options 1 = [] /\
   fst (useRetryFn slow_failure options) = Rejected timeout_error /\
   fst (useRetryFn slow_failure options) <> Rejected (Err (mkError "boom"%string)) /\
   op_calls (snd (useRetryFn slow_failure options)) = 1%nat) /\
  (let options := mkOptions None (Some throwing_hook) (Some 3) None in
   max_attempts options = 3 /\
   op_settle (always_fails 3) = Rejects 0 (attempt_failed 3) /\
   skip_calls always_fails options 1 = [] /\
   fst (useRetryFn always_fails options) = Rejected (Err (mkError "hook failed"%string)) /\
   fst (useRetryFn always_fails options) <> Rejected (attempt_failed 3) /\
   op_calls (snd (useRetryFn always_fails options)) = 1%nat) /\
  (let options := mkOptions (Some (DelayFunction throwing_delay)) None (Some 3) None in
   max_attempts options = 3 /\
   op_settle (always_fails 3) = Rejects 0 (attempt_failed 3) /\
   skip_calls always_fails options 1 = [] /\
   timed_out always_fails options 1 = false /\
   fst (useRetryFn always_fails options) = Rejected (Err (mkError "delay failed"%string)) /\
   fst (useRetryFn always_fails options) <> Rejected (attempt_failed 3) /\
   op_calls (snd (useRetryFn always_fails options)) = 0%nat).
Proof.
  split; [|split]; cbv zeta; repeat split; try (vm_compute; reflexivity);
    vm_compute; intro H; discriminate.
Qed.

(** C3, what the code does.  In the setting of C2 the delay is awaited
    [m] times, not [m - 1]: the last entries of the log are the sleep
    that follows failure [m] and the exit of the loop.  The call is
    suspended once more between its final failure and its rejection. *)
Theorem delay_awaited_after_final_failure
  (T : Type) (fn : UseRetryFn T) (options : UseRetryFnOptions)
  (m : Z) (errs : Z -> jsval) :
  max_attempts options = m ->
  1 <= m ->
  (forall a, 1 <= a <= m -> exists d, op_settle (fn a) = Rejects d (errs a)) ->
  (forall a, 1 <= a <= m -> skip_calls fn options a = []) ->
  (forall a, 1 <= a <= m -> timed_out fn options a = false) ->
  (forall a, 1 <= a <= m -> delay_thrown options a = None) ->
  (forall a, 1 <= a <= m -> hook_thrown options a = None) ->
  let run := useRetryFn fn options in
  delays_awaited (snd run) = Z.to_nat m /\
  sleeps (snd run) =
    flat_map (fun a => match delay_at options a with
                       | DelayIs d => [d]
                       | DelayThrows _ => []
                       end) (ordinals 1 (Z.to_nat m)) /\
  exists l0 d sf, snd run = l0 ++ [(Sleep d, sf); (LoopExit, sf)].
Proof.
  intros Hm Hpos Hfail Hskip Htimer Hdelay Hhook run. subst run. unfold useRetryFn.
  assert (forall a, 1 <= a <= m -> retried fn options a (errs a)) as Hall
    by (intros a Ha; repeat split; auto).
  destruct (@loop_exhausts T fn options (Z.to_nat m) init_state errs)
    as [_ [Hc [Hd Ht]]].
  - cbn [attempts init_state]. lia.
  - cbn [attempts init_state]. rewrite Hm. exact Hall.
  - split; [exact Hd|]. split; [|apply Ht; lia].
    rewrite (loop_delay_awaited fn options init_state).
    pose proof (loop_op_ordinals fn options init_state) as Ho.
    cbn [attempts init_state] in Ho. rewrite Hc in Ho. rewrite Ho.
    clear Ho Hc Hd Ht.
    assert (forall n a0, 1 <= a0 -> a0 + Z.of_nat n <= m + 1 ->
              flat_map (delay_awaited fn options) (ordinals a0 n) =
              flat_map (fun a => match delay_at options a with
                                 | DelayIs d => [d]
                                 | DelayThrows _ => []
                                 end) (ordinals a0 n)) as Hflat.
    { induction n as [|n IH]; intros a0 H1 H2; [reflexivity|].
      cbn [ordinals flat_map]. rewrite IH by lia. f_equal.
      unfold delay_awaited.
      destruct (@retried_retries T fn options a0 (errs a0)) as [_ ->];
        [apply Hall; lia | reflexivity]. }
    apply Hflat; lia.
Qed.

(** Three attempts allowed: three delays of 100 are awaited. *)
Lemma delay_awaited_after_final_failure_witness :
  delays_awaited (snd (useRetryFn always_fails (mkOptions None None (Some 3) None)))
    = 3%nat /\
  sleeps (snd (useRetryFn always_fails (mkOptions None None (Some 3) None)))
    = [100; 100; 100] /\
  exists l0 d sf,
    snd (useRetryFn always_fails (mkOptions None None (Some 3) None))
    = l0 ++ [(Sleep d, sf); (LoopExit, sf)].
Proof.
  apply (@delay_awaited_after_final_failure
           string always_fails (mkOptions None None (Some 3) None) 3 attempt_failed).
  - reflexivity.
  - lia.
  - intros a Ha. exists 0%N. reflexivity.
  - intros a Ha. reflexivity.
  - intros a Ha. reflexivity.
  - intros a Ha. reflexivity.
  - intros a Ha. reflexivity.
Defined.

(** ** C4: the skip capability *)

Section Skip.

Context {T : Type} (fn : UseRetryFn T) (options : UseRetryFnOptions).

Lemma after_skips_snoc (calls : list jsval) (arg : jsval) (s : state) :
  after_skips (calls ++ [arg]) s = requestSkip arg (after_skips calls s).
Proof.
  revert s; induction calls as [|c calls IH]; intro s; [reflexivity|].
  cbn [app after_skips]. apply IH.
Qed.

Lemma after_skips_lastError (errs : list jsval) (s : state) :
  lastError (after_skips errs s) = lastError s.
Proof.
  revert s; induction errs as [|e errs IH]; intro s; [reflexivity|].
  cbn [after_skips]. rewrite IH. reflexivity.
Qed.

Lemma after_skips_latched (errs : list jsval) (s : state) :
  skipRetry s = true -> skipRetry (after_skips errs s) = true.
Proof.
  revert s; induction errs as [|e errs IH]; intros s Hs; [exact Hs|].
  cbn [after_skips]. apply IH. reflexivity.
Qed.

Lemma after_skips_falsy (errs : list jsval) (s : state) :
  Forall (fun c => truthy c = false) errs ->
  truthy (customError s) = false ->
  truthy (customError (after_skips errs s)) = false.
Proof.
  revert s; induction errs as [|e errs IH]; intros s Hf Hs; [exact Hs|].
  cbn [after_skips]. inversion Hf as [|? ? He Hrest]; subst.
  apply IH; [exact Hrest|]. cbn [requestSkip customError].
  destruct e; [reflexivity | reflexivity | discriminate].
Qed.

(** The calls of the operation, something that leaves the two skip
    variables alone or latches, then the calls of the hook: the last
    call decides. *)
Lemma last_call_decides (ops hooks calls : list jsval) (arg : jsval)
      (s0 : state) (g : state -> state) :
  ops ++ hooks = calls ++ [arg] ->
  (forall s, customError (g s) = customError s) ->
  (forall s, skipRetry s = true -> skipRetry (g s) = true) ->
  customError (after_skips hooks (g (after_skips ops s0))) = nullish arg Null /\
  skipRetry (after_skips hooks (g (after_skips ops s0))) = true.
Proof.
  intros E Hc Hl.
  induction hooks as [|z hc _] using rev_ind.
  - rewrite app_nil_r in E. subst ops. cbn [after_skips].
    rewrite after_skips_snoc. split; [rewrite Hc; reflexivity|].
    apply Hl. reflexivity.
  - rewrite app_assoc in E. apply app_inj_tail in E. destruct E as [_ ->].
    rewrite after_skips_snoc. split; reflexivity.
Qed.

Lemma iteration_skipped (s : state) (err arg : jsval) (calls : list jsval) :
  delay_thrown options (attempts s) = None ->
  attempt_error fn options (attempts s) = Some err ->
  skip_calls fn options (attempts s) = calls ++ [arg] ->
  hook_thrown options (attempts s) = None ->
  fst (fst (iteration fn options s)) =
  Exit (Rejected (match arg with Err e => Err e | _ => err end)).
Proof.
  unfold delay_thrown, attempt_error, skip_calls, hook_skip_calls, hook_thrown.
  unfold iteration, attempt, handle, decide. cbn [attempts].
  destruct (delay_at options (attempts s)) as [dl|thrown]; [intros _ | discriminate].
  intros Herr Hcalls Hhook.
  set (s0 := mkState (attempts s) (lastError s) Null false) in *.
  assert (forall g e,
            (forall x, customError (g x) = customError x) ->
            (forall x, skipRetry x = true -> skipRetry (g x) = true) ->
            (forall x, lastError (g x) = e) ->
            attempts (g (after_skips (op_skips (fn (attempts s))) s0)) = attempts s + 1 ->
            let s2 := after_skips
                        match onError options with
                        | Some h => hook_skips (h (attempts s + 1))
                        | None => []
                        end
                        (g (after_skips (op_skips (fn (attempts s))) s0)) in
            skipRetry s2 = true /\
            js_or (customError s2) (lastError s2) =
            match arg with Err e' => Err e' | _ => e end) as Hkey.
  { intros g e Hc Hl He _ s2. subst s2.
    destruct (@last_call_decides _ _ _ _ s0 g Hcalls Hc Hl) as [Hcust Hskip].
    split; [exact Hskip|].
    rewrite Hcust, after_skips_lastError, He. destruct arg; reflexivity. }
  destruct (race options (op_settle (fn (attempts s)))) as [v|e| |];
    try discriminate; injection Herr as <-.
  - destruct (Hkey (catch_error e) e) as [Hs Hr]; try (intros; reflexivity).
    { intros x Hx. exact Hx. }
    { unfold catch_error; cbn [attempts]. rewrite after_skips_attempts. reflexivity. }
    unfold catch_error in *. cbn [attempts] in *.
    rewrite after_skips_attempts in *.
    change (attempts s0) with (attempts s) in *.
    destruct (onError options) as [h|].
    + rewrite Hhook, Hs, Hr. reflexivity.
    + cbn [after_skips] in Hs, Hr. rewrite Hs, Hr. reflexivity.
  - destruct (Hkey (fun x => catch_error timeout_error (timer_fires x)) timeout_error)
      as [Hs Hr]; try (intros; reflexivity).
    { unfold catch_error, timer_fires; cbn [attempts].
      rewrite after_skips_attempts. reflexivity. }
    unfold catch_error, timer_fires in *. cbn [attempts customError skipRetry] in *.
    rewrite after_skips_attempts in *.
    change (attempts s0) with (attempts s) in *.
    destruct (onError options) as [h|].
    + rewrite Hhook, Hs, Hr. reflexivity.
    + cbn [after_skips] in Hs, Hr. cbn [skipRetry customError lastError fst] in *.
      rewrite Hr. reflexivity.
Qed.

Lemma loop_skipped (s : state) (n : Z) (err arg : jsval) (calls : list jsval) :
  attempt_error fn options n = Some err ->
  skip_calls fn options n = calls ++ [arg] ->
  hook_thrown options n = None ->
  In n (op_ordinals (snd (loop fn options s))) ->
  fst (loop fn options s) = Rejected (match arg with Err e => Err e | _ => err end) /\
  Z.of_nat (op_calls (snd (loop fn options s))) = n - attempts s + 1.
Proof.
  intros Herr Hcalls Hhook.
  apply loop_induction with
    (P := fun s rl =>
            In n (op_ordinals (snd rl)) ->
            fst rl = Rejected (match arg with Err e => Err e | _ => err end) /\
            Z.of_nat (op_calls (snd rl)) = n - attempts s + 1);
    clear s; cbn [fst snd].
  - intros s _ [].
  - intros s s' r l _ Hit Hin.
    at_iteration Hit (iteration_op_ordinals fn options s) Ho.
    rewrite Ho in Hin.
    destruct (delay_at options (attempts s)) as [dl|thrown] eqn:Edl;
      [|destruct Hin].
    destruct Hin as [<-|[]].
    assert (delay_thrown options (attempts s) = None) as Hdl
      by (unfold delay_thrown; rewrite Edl; reflexivity).
    at_iteration Hit (@iteration_skipped s err arg calls Hdl Herr Hcalls Hhook) Hr.
    injection Hr as ->. split; [reflexivity|].
    unfold op_calls. rewrite Ho. cbn [length]. lia.
  - intros s s' l _ Hit IH Hin.
    at_iteration Hit (iteration_op_ordinals fn options s) Ho.
    unfold op_ordinals in Hin. rewrite select_app in Hin.
    apply in_app_or in Hin. destruct Hin as [Hin|Hin].
    + unfold op_ordinals in Ho. rewrite Ho in Hin.
      destruct (delay_at options (attempts s)) as [dl|thrown] eqn:Edl;
        [|destruct Hin].
      destruct Hin as [<-|[]].
      assert (delay_thrown options (attempts s) = None) as Hdl
        by (unfold delay_thrown; rewrite Edl; reflexivity).
      at_iteration Hit (@iteration_skipped s err arg calls Hdl Herr Hcalls Hhook) Hr.
      discriminate.
    + at_iteration Hit (iteration_op_ordinals_continue fn options s) Hoc.
      specialize (Hoc eq_refl). unfold op_ordinals in Hoc.
      apply iteration_continue in Hit.
      destruct (IH Hin) as [Hr Hn]. split; [exact Hr|].
      unfold op_calls in *. unfold op_ordinals in *.
      rewrite select_app, length_app, Hoc. cbn [length]. lia.
Qed.

End Skip.

(** C4, as amended.  Let attempt [n] take place and fail with [err]
    (the error the operation threw, or the timeout error), let the
    skip capability be called during it, by the operation or by the
    hook, and let the hook return normally.  Then the last of these
    calls decides: if its argument is an error value, the call fails
    with exactly that value; if it has no argument, the call fails with
    [err].  In both cases the operation has been invoked exactly [n]
    times, whatever [maxAttempts]. *)
Theorem skip_terminates_with_last_request
  (T : Type) (fn : UseRetryFn T) (options : UseRetryFnOptions)
  (n : Z) (err arg : jsval) (calls : list jsval) :
  let run := useRetryFn fn options in
  In n (op_ordinals (snd run)) ->
  attempt_error fn options n = Some err ->
  skip_calls fn options n = calls ++ [arg] ->
  hook_thrown options n = None ->
  fst run = Rejected (match arg with Err e => Err e | _ => err end) /\
  Z.of_nat (op_calls (snd run)) = n.
Proof.
  intros run Hin Herr Hcalls Hhook. subst run. unfold useRetryFn in *.
  destruct (@loop_skipped T fn options init_state n err arg calls Herr Hcalls Hhook Hin) as [Hr Hn].
  split; [exact Hr|]. cbn [attempts init_state] in Hn. lia.
Qed.

(** The capability called with an error on the second of five attempts:
    the call fails with that error after two invocations. *)
Lemma skip_terminates_with_last_request_witness :
  fst (useRetryFn skips_on_second (mkOptions None None (Some 5) None))
    = Rejected (Err (mkError "Custom error"%string)) /\
  Z.of_nat (op_calls (snd (useRetryFn skips_on_second (mkOptions None None (Some 5) None))))
    = 2.
Proof.
  apply (@skip_terminates_with_last_request
           string skips_on_second (mkOptions None None (Some 5) None) 2
           (Err (mkError "Regular error"%string))
           (Err (mkError "Custom error"%string)) []).
  - vm_compute. right. left. reflexivity.
  - reflexivity.
  - reflexivity.
  - reflexivity.
Defined.

(** C4 as stated fails.  The capability is called with an error value
    during the first attempt, which fails; but it is called again with
    no argument, and the call fails with the error of the attempt; or
    the hook throws, and the call fails with what the hook threw. *)
Lemma explicit_skip_error_lost :
  (In (Err (mkError "Custom error"%string)) (op_skips (skips_then_withdraws 1)) /\
   op_settle (skips_then_withdraws 1) = Rejects 0 (Err (mkError "Regular error"%string)) /\
   fst (useRetryFn skips_then_withdraws no_options)
     = Rejected (Err (mkError "Regular error"%string)) /\
   fst (useRetryFn skips_then_withdraws no_options)
     <> Rejected (Err (mkError "Custom error"%string))) /\
  (let options := mkOptions None (Some throwing_hook) None None in
   In (Err (mkError "Custom error"%string)) (op_skips (skips_at_once 1)) /\
   op_settle (skips_at_once 1) = Rejects 0 (Err (mkError "Regular error"%string)) /\
   fst (useRetryFn skips_at_once options)
     = Rejected (Err (mkError "hook failed"%string)) /\
   fst (useRetryFn skips_at_once options)
     <> Rejected (Err (mkError "Custom error"%string))).
Proof.
  split; cbv zeta; repeat split; try (vm_compute; reflexivity);
    try (vm_compute; intro H; discriminate); vm_compute; left; reflexivity.
Qed.


(** ** C5: the timer *)

Section Timer.

Context {T : Type} (fn : UseRetryFn T) (options : UseRetryFnOptions).

Lemma exceeds_timed_out (t : N) (a : Z) :
  timeout options = Some t -> (0 < t)%N ->
  exceeds t (op_settle (fn a)) ->
  timed_out fn options a = true.
Proof.
  intros Ht Hpos Hex. unfold timed_out, race, timer. rewrite Ht.
  destruct (t =? 0)%N eqn:E0; [apply N.eqb_eq in E0; lia|].
  destruct (op_settle (fn a)) as [d v|d err|]; cbn [exceeds] in Hex;
    try reflexivity;
    destruct (N.leb_spec d t); (lia || reflexivity).
Qed.

Lemma iteration_timed_out (s : state) :
  delay_thrown options (attempts s) = None ->
  timed_out fn options (attempts s) = true ->
  (exists x, fst (fst (iteration fn options s)) = Exit (Rejected x)) /\
  skipRetry (snd (fst (iteration fn options s))) = true /\
  (hook_thrown options (attempts s) = None ->
   Forall (fun c => truthy c = false) (skip_calls fn options (attempts s)) ->
   fst (fst (iteration fn options s)) = Exit (Rejected timeout_error)).
Proof.
  unfold delay_thrown, timed_out, hook_thrown, skip_calls, hook_skip_calls.
  unfold iteration, attempt, handle, decide. cbn [attempts].
  destruct (delay_at options (attempts s)) as [dl|thrown]; [intros _ | discriminate].
  destruct (race options (op_settle (fn (attempts s)))); try discriminate.
  intros _.
  set (s0 := mkState (attempts s) (lastError s) Null false).
  set (s1 := catch_error timeout_error
               (timer_fires (after_skips (op_skips (fn (attempts s))) s0))).
  assert (attempts s1 = attempts s + 1) as Ea.
  { unfold s1, catch_error, timer_fires. cbn [attempts].
    rewrite after_skips_attempts. reflexivity. }
  rewrite Ea.
  assert (skipRetry s1 = true) as Hs1 by reflexivity.
  destruct (onError options) as [h|].
  - pose proof (after_skips_latched (hook_skips (h (attempts s + 1))) s1 Hs1) as Hl.
    destruct (hook_throws (h (attempts s + 1))) as [thrown|].
    + cbn [fst snd]. split; [eexists; reflexivity|]. split; [exact Hl|].
      intro H; discriminate.
    + rewrite Hl. cbn [fst snd]. split; [eexists; reflexivity|].
      split; [exact Hl|]. intros _ Hf.
      apply Forall_app in Hf. destruct Hf as [Hfo Hfh].
      assert (truthy (customError (after_skips (hook_skips (h (attempts s + 1))) s1))
              = false) as Hc.
      { apply after_skips_falsy; [exact Hfh|].
        unfold s1, catch_error, timer_fires. cbn [customError].
        apply after_skips_falsy; [exact Hfo | reflexivity]. }
      unfold js_or. rewrite Hc, after_skips_lastError. reflexivity.
  - rewrite Hs1. cbn [fst snd]. split; [eexists; reflexivity|].
    split; [reflexivity|]. intros _ Hf.
    apply Forall_app in Hf. destruct Hf as [Hfo _].
    assert (truthy (customError s1) = false) as Hc.
    { unfold s1, catch_error, timer_fires. cbn [customError].
      apply after_skips_falsy; [exact Hfo | reflexivity]. }
    unfold js_or. rewrite Hc. reflexivity.
Qed.

End Timer.

(** C5, as amended.  Let a positive [timeout] be set, at least one
    attempt be allowed, the delay function, if there is one, return
    when it is called for the first attempt, and the operation settle
    on its first invocation later than the timeout, or never.  Then
    the call fails;
    the operation is invoked exactly once, whatever [maxAttempts];
    [skipRetry] is latched when the call ends and no delay is awaited.
    If moreover the skip capability is not called with an error value
    during that attempt, by the operation or by the hook, and the hook
    returns normally, the call fails with the error whose message is
    'Operation timed out'. *)
Theorem timeout_fails_without_retry
  (T : Type) (fn : UseRetryFn T) (options : UseRetryFnOptions) (t : N) :
  timeout options = Some t ->
  (0 < t)%N ->
  exceeds t (op_settle (fn 1)) ->
  1 <= max_attempts options ->
  delay_thrown options 1 = None ->
  let run := useRetryFn fn options in
  op_calls (snd run) = 1%nat /\
  delays_awaited (snd run) = 0%nat /\
  (exists x, fst run = Rejected x) /\
  skipRetry (last_state init_state (snd run)) = true /\
  (hook_thrown options 1 = None ->
   Forall (fun c => truthy c = false) (skip_calls fn options 1) ->
   fst run = Rejected timeout_error).
Proof.
  intros Ht Hpos Hex Hm Hdl run. subst run. unfold useRetryFn.
  pose proof (exceeds_timed_out fn options 1 Ht Hpos Hex) as Hto.
  destruct (iteration_timed_out fn options init_state Hdl Hto)
    as [[x Hx] [Hlatch Hplain]].
  pose proof (iteration_op_ordinals fn options init_state) as Ho.
  pose proof (iteration_sleeps fn options init_state) as Hs.
  destruct (@delay_returns options 1 Hdl) as [dl Edl].
  cbn [attempts init_state] in Ho, Hs. rewrite Edl in Ho, Hs.
  destruct (iteration_runs fn options init_state eq_refl) as [[_ Hlast] _].
  destruct (iteration fn options init_state) as [[f s'] l] eqn:E.
  cbn [fst snd] in *. subst f.
  rewrite (loop_return fn options init_state Hm E). cbn [fst snd].
  unfold op_calls, delays_awaited. rewrite Ho, Hs, Hlast.
  repeat split; try assumption.
  - exists x; reflexivity.
  - intros Hh Hf. specialize (Hplain Hh Hf). congruence.
Qed.

(** The operation that takes 2000 to resolve, with a timeout of 1000. *)
Lemma timeout_fails_without_retry_witness :
  fst (useRetryFn slow_success (mkOptions None None None (Some 1000%N)))
    = Rejected (Err (mkError "Operation timed out"%string)) /\
  op_calls (snd (useRetryFn slow_success (mkOptions None None None (Some 1000%N))))
    = 1%nat.
Proof.
  destruct (@timeout_fails_without_retry
              string slow_success (mkOptions None None None (Some 1000%N)) 1000%N)
    as [Hc [_ [_ [_ Hr]]]].
  - reflexivity.
  - reflexivity.
  - reflexivity.
  - cbn. lia.
  - reflexivity.
  - split; [|exact Hc]. apply Hr.
    + reflexivity.
    + constructor.
Defined.

(** C5 as stated fails.  With a timeout of 1000 and an operation that
    settles after 2000 or never: when the hook, or the operation
    before the timer fires, calls the capability with an error value,
    the call fails with that value; when the hook throws, with what it
    threw; each time not with the timeout error.  With [maxAttempts]
    0 the operation is not invoked at all; nor is it when the delay
    function throws, and the call fails with what that function
    threw. *)
Lemma timeout_error_overridden :
  (let options := mkOptions None (Some overriding_hook) None (Some 1000%N) in
   exceeds 1000 (op_settle (slow_success 1)) /\
   fst (useRetryFn slow_success options) = Rejected (Err (mkError "Custom error"%string)) /\
   fst (useRetryFn slow_success options) <> Rejected timeout_error) /\
  (let options := mkOptions None None None (Some 1000%N) in
   exceeds 1000 (op_settle (skips_then_hangs 1)) /\
   fst (useRetryFn skips_then_hangs options) = Rejected (Err (mkError "Custom error"%string)) /\
   fst (useRetryFn skips_then_hangs options) <> Rejected timeout_error) /\
  (let options := mkOptions None (Some throwing_hook) None (Some 1000%N) in
   exceeds 1000 (op_settle (slow_success 1)) /\
   fst (useRetryFn slow_success options) = Rejected (Err (mkError "hook failed"%string)) /\
   fst (useRetryFn slow_success options) <> Rejected timeout_error) /\
  (let options := mkOptions None None (Some 0) (Some 1000%N) in
   exceeds 1000 (op_settle (slow_success 1)) /\
   fst (useRetryFn slow_success options) = Rejected Null /\
   op_calls (snd (useRetryFn slow_success options)) = 0%nat) /\
  (let options :=
     mkOptions (Some (DelayFunction throwing_delay)) None None (Some 1000%N) in
   exceeds 1000 (op_settle (slow_success 1)) /\
   fst (useRetryFn slow_success options)
     = Rejected (Err (mkError "delay failed"%string)) /\
   fst (useRetryFn slow_success options) <> Rejected timeout_error /\
   op_calls (snd (useRetryFn slow_success options)) = 0%nat).
Proof.
  repeat split; try (vm_compute; reflexivity); try exact I;
    vm_compute; intro H; discriminate.
Qed.

(** ** Instances of C9 and C10 *)

(** A hook that throws at the first failure of five allowed attempts. *)
Lemma onError_exception_propagates_witness :
  fst (useRetryFn always_fails (mkOptions None (Some throwing_hook) None None))
    = Rejected (Err (mkError "hook failed"%string)) /\
  Z.of_nat (op_calls (snd (useRetryFn always_fails
                             (mkOptions None (Some throwing_hook) None None)))) = 1 /\
  Z.of_nat (delays_awaited (snd (useRetryFn always_fails
                                   (mkOptions None (Some throwing_hook) None None)))) = 0.
Proof.
  destruct (@onError_exception_propagates
              string always_fails None throwing_hook None None 2
              (Err (mkError "hook failed"%string)))
    as [Hr [_ [Hn Hd]]].
  - vm_compute. left. reflexivity.
  - reflexivity.
  - repeat split; assumption.
Defined.

(** [maxAttempts: 0] *)
Lemma nonpositive_maxAttempts_throws_null_witness :
  useRetryFn always_fails (mkOptions None None (Some 0) None)
    = (Rejected Null, [(LoopExit, init_state)]) /\
  op_calls (snd (useRetryFn always_fails (mkOptions None None (Some 0) None))) = 0%nat.
Proof.
  destruct (@nonpositive_maxAttempts_throws_null
              string always_fails (mkOptions None None (Some 0) None))
    as [Hr [Hc _]].
  - cbn. lia.
  - split; [exact Hr | exact Hc].
Defined.

(** * Further properties of the loop *)

(** * Further properties of the loop *)

(** ** How often the callbacks run *)

Section Bounds.

Context {T : Type} (fn : UseRetryFn T) (options : UseRetryFnOptions).

Lemma loop_op_calls_bound (s : state) :
  Z.of_nat (op_calls (snd (loop fn options s))) <=
  Z.max 0 (max_attempts options + 1 - attempts s).
Proof.
  apply loop_induction with
    (P := fun s rl => Z.of_nat (op_calls (snd rl)) <=
                      Z.max 0 (max_attempts options + 1 - attempts s));
    clear s; cbn [fst snd].
  - intros s _. cbn. lia.
  - intros s s' r l Hle Hit.
    at_iteration Hit (iteration_failures fn options s) Ho.
    destruct Ho as [_ [Ho _]]. unfold op_calls. lia.
  - intros s s' l Hle Hit IH.
    at_iteration Hit (iteration_failures fn options s) Ho.
    destruct Ho as [_ [Ho _]].
    apply iteration_continue in Hit.
    unfold op_calls in *. unfold op_ordinals in *.
    rewrite select_app, length_app. lia.
Qed.

Lemma ordinals_bounds (a : Z) (n : nat) :
  Forall (fun x => a <= x < a + Z.of_nat n) (ordinals a n).
Proof.
  revert a; induction n as [|n IH]; intro a; cbn [ordinals].
  - constructor.
  - constructor; [lia|].
    eapply Forall_impl; [|apply IH]. cbn beta. intros x Hx. lia.
Qed.

Lemma iteration_hook_calls_le (s : state) :
  (length (onError_ordinals (snd (iteration fn options s))) <=
   length (failures (snd (iteration fn options s))))%nat.
Proof.
  unfold onError_ordinals, failures.
  split_iteration; project; cbn [length]; lia.
Qed.

Lemma loop_hook_calls_le (s : state) :
  (length (onError_ordinals (snd (loop fn options s))) <=
   length (failures (snd (loop fn options s))))%nat.
Proof.
  apply loop_induction with
    (P := fun s rl => (length (onError_ordinals (snd rl)) <=
                       length (failures (snd rl)))%nat);
    clear s; cbn [fst snd].
  - intros s _. cbn. lia.
  - intros s s' r l _ Hit.
    at_iteration Hit (iteration_hook_calls_le s) Hl. exact Hl.
  - intros s s' l _ Hit IH.
    at_iteration Hit (iteration_hook_calls_le s) Hl.
    unfold onError_ordinals, failures in *.
    rewrite !select_app, !length_app. lia.
Qed.

End Bounds.

(** X1. The operation is never invoked more than [maxAttempts] times, and
    not at all when [maxAttempts] is zero or less; every [attempts] it
    receives lies between 1 and [maxAttempts].  The hook is invoked,
    and the delay awaited, at most as often as the operation is
    invoked. *)
Theorem invocations_bounded_by_maxAttempts
  (T : Type) (fn : UseRetryFn T) (options : UseRetryFnOptions) :
  let l := snd (useRetryFn fn options) in
  Z.of_nat (op_calls l) <= Z.max 0 (max_attempts options) /\
  Forall (fun a => 1 <= a <= max_attempts options) (op_ordinals l) /\
  (length (onError_ordinals l) <= op_calls l)%nat /\
  (delays_awaited l <= op_calls l)%nat.
Proof.
  intro l. subst l. unfold useRetryFn.
  pose proof (loop_op_calls_bound fn options init_state) as Hb.
  pose proof (loop_counts fn options init_state) as [[Hd Hf] _].
  pose proof (loop_hook_calls_le fn options init_state) as Hh.
  cbn [attempts init_state] in Hb.
  split; [lia|]. split; [|split; lia].
  rewrite loop_op_ordinals. cbn [attempts init_state].
  eapply Forall_impl; [|apply ordinals_bounds]. cbn beta. intros x Hx. lia.
Qed.

(** ** Options that make no difference *)

Section Extensionality.

Context {T : Type} (fn : UseRetryFn T) (o1 o2 : UseRetryFnOptions).

Hypothesis same_race : forall c : settle T, race o1 c = race o2 c.
Hypothesis same_delay : forall a, delay_at o1 a = delay_at o2 a.
Hypothesis same_delay_log : forall s, delay_log o1 s = delay_log o2 s.
Hypothesis same_hook : onError o1 = onError o2.
Hypothesis more_attempts : max_attempts o1 <= max_attempts o2.

Lemma iteration_ext (s : state) : iteration fn o1 s = iteration fn o2 s.
Proof.
  unfold iteration, attempt, handle.
  rewrite same_race, same_delay, !same_delay_log, same_hook. reflexivity.
Qed.

(** The run under [o2] is the run under [o1], unless that one stopped
    for want of attempts that [o2] still allows. *)
Lemma loop_ext (s : state) :
  max_attempts o1 = max_attempts o2 \/ loop_exits (snd (loop fn o1 s)) = [] ->
  loop fn o2 s = loop fn o1 s.
Proof.
  apply loop_induction with
    (P := fun s rl =>
            max_attempts o1 = max_attempts o2 \/ loop_exits (snd rl) = [] ->
            loop fn o2 s = rl);
    clear s; cbn [fst snd].
  - intros s Hgt [Heq|Hno].
    + apply loop_exit. lia.
    + discriminate.
  - intros s s' r l Hle Hit _.
    rewrite iteration_ext in Hit.
    apply (loop_return fn o2 s ltac:(lia) Hit).
  - intros s s' l Hle Hit IH Hc.
    rewrite iteration_ext in Hit.
    rewrite (loop_continue fn o2 s ltac:(lia) Hit).
    rewrite IH; [reflexivity|].
    destruct Hc as [Heq|Hno]; [left; exact Heq|].
    right. unfold loop_exits in *. rewrite select_app in Hno.
    apply app_eq_nil in Hno. apply Hno.
Qed.

End Extensionality.

Section Exits.

Context {T : Type} (fn : UseRetryFn T) (options : UseRetryFnOptions).

Lemma iteration_loop_exits (s : state) :
  loop_exits (snd (iteration fn options s)) = [].
Proof.
  unfold loop_exits. split_iteration; project; reflexivity.
Qed.

(** A run that ends by the test of the loop fails with [lastError]. *)
Lemma loop_exits_rejected (s : state) :
  loop_exits (snd (loop fn options s)) <> [] ->
  exists x, fst (loop fn options s) = Rejected x.
Proof.
  apply loop_induction with
    (P := fun s rl => loop_exits (snd rl) <> [] -> exists x, fst rl = Rejected x);
    clear s; cbn [fst snd].
  - intros s _ _. eexists; reflexivity.
  - intros s s' r l _ Hit Hne.
    at_iteration Hit (iteration_loop_exits s) He. contradiction.
  - intros s s' l _ Hit IH Hne.
    at_iteration Hit (iteration_loop_exits s) He.
    apply IH. unfold loop_exits in *. rewrite select_app, He in Hne. exact Hne.
Qed.

End Exits.

(** X3. Allowing more attempts changes nothing in a call that did not run
    out of attempts: with every other option the same and a larger
    [maxAttempts], the result and the whole log are the same.  In
    particular a call that resolves, or hangs, does the same after the
    same invocations. *)
Theorem more_attempts_preserve_run
  (T : Type) (fn : UseRetryFn T) (d : option delay_option)
  (h : option (Z -> hook_run)) (m1 m2 : Z) (t : option N) :
  m1 <= m2 ->
  let run1 := useRetryFn fn (mkOptions d h (Some m1) t) in
  let run2 := useRetryFn fn (mkOptions d h (Some m2) t) in
  (loop_exits (snd run1) = [] -> run2 = run1) /\
  (forall v, fst run1 = Resolved v -> run2 = run1) /\
  (fst run1 = Pending -> run2 = run1).
Proof.
  intros Hm run1 run2. subst run1 run2. unfold useRetryFn.
  set (o1 := mkOptions d h (Some m1) t). set (o2 := mkOptions d h (Some m2) t).
  assert (loop_exits (snd (loop fn o1 init_state)) = [] ->
          loop fn o2 init_state = loop fn o1 init_state) as Hkey.
  { intro Hno. apply loop_ext; try (intros; reflexivity); try reflexivity.
    - exact Hm.
    - right. exact Hno. }
  split; [exact Hkey|].
  split; [intros v Hv | intros Hv]; apply Hkey;
    destruct (loop_exits (snd (loop fn o1 init_state))) eqn:E; try reflexivity;
    destruct (@loop_exits_rejected T fn o1 init_state) as [x Hx];
    try (rewrite E; discriminate); rewrite Hx in Hv; discriminate.
Qed.

(** Three attempts that fail and a fourth that succeeds: the same run
    with five attempts allowed and with seven. *)
Lemma more_attempts_preserve_run_witness :
  useRetryFn (fails_until 3) (mkOptions None None (Some 7) None) =
  useRetryFn (fails_until 3) (mkOptions None None (Some 5) None).
Proof.
  destruct (@more_attempts_preserve_run
              string (fails_until 3) None None 5 7 None ltac:(lia))
    as [_ [Hr _]].
  apply (Hr "success"%string). vm_compute. reflexivity.
Defined.

(** ** A delay that is a number *)

Section FixedDelay.

Context {T : Type} (fn : UseRetryFn T) (options : UseRetryFnOptions).
Context (d : Z) (Hd : forall a, delay_at options a = DelayIs d).

Lemma loop_sleeps_fixed (s : state) :
  sleeps (snd (loop fn options s)) =
  repeat d (delays_awaited (snd (loop fn options s))).
Proof.
  apply loop_induction with
    (P := fun s rl => sleeps (snd rl) = repeat d (delays_awaited (snd rl)));
    clear s; cbn [fst snd].
  - intros s _. reflexivity.
  - intros s s' r l _ Hit.
    at_iteration Hit (iteration_sleeps fn options s) Hs.
    unfold delays_awaited. rewrite Hs. reflexivity.
  - intros s s' l _ Hit IH.
    at_iteration Hit (iteration_sleeps fn options s) Hs.
    rewrite Hd in Hs.
    unfold delays_awaited in *. unfold sleeps in *.
    rewrite select_app, length_app, Hs. cbn [length Nat.add repeat app].
    f_equal. exact IH.
Qed.

End FixedDelay.

Lemma loop_no_delay_call
  (T : Type) (fn : UseRetryFn T) (options : UseRetryFnOptions) (s : state) :
  (forall f, delay options <> Some (DelayFunction f)) ->
  delay_ordinals (snd (loop fn options s)) = [].
Proof.
  intro Hnf.
  assert (forall s, delay_ordinals (snd (iteration fn options s)) = []) as Hit0.
  { intro s0. rewrite iteration_delay_ordinals.
    destruct (delay options) as [[x|f]|]; try reflexivity.
    exfalso. apply (Hnf f). reflexivity. }
  apply loop_induction with
    (P := fun s rl => delay_ordinals (snd rl) = []);
    clear s; cbn [fst snd].
  - intros s _. reflexivity.
  - intros s s' r l _ Hit. specialize (Hit0 s). rewrite Hit in Hit0. exact Hit0.
  - intros s s' l _ Hit IH. specialize (Hit0 s). rewrite Hit in Hit0.
    cbn [snd] in Hit0. unfold delay_ordinals in *.
    rewrite select_app, Hit0, IH. reflexivity.
Qed.

(** X4. With [delay] a number, every delay that is awaited is that number;
    with no [delay], every one is 100.  No delay function is invoked
    in either case. *)
Theorem fixed_delay_is_awaited_each_time
  (T : Type) (fn : UseRetryFn T) (d : Z)
  (h : option (Z -> hook_run)) (m : option Z) (t : option N) :
  let given := snd (useRetryFn fn (mkOptions (Some (DelayNumber d)) h m t)) in
  let absent := snd (useRetryFn fn (mkOptions None h m t)) in
  sleeps given = repeat d (delays_awaited given) /\
  delay_ordinals given = [] /\
  sleeps absent = repeat 100 (delays_awaited absent) /\
  delay_ordinals absent = [].
Proof.
  intros given absent. subst given absent. unfold useRetryFn.
  repeat split.
  - apply loop_sleeps_fixed. intro a. reflexivity.
  - apply loop_no_delay_call. intros f H. discriminate.
  - apply loop_sleeps_fixed. intro a. reflexivity.
  - apply loop_no_delay_call. intros f H. discriminate.
Qed.

(** ** A timer that fires in a later attempt *)

Section LateTimer.

Context {T : Type} (fn : UseRetryFn T) (options : UseRetryFnOptions).

Lemma loop_timed_out (s : state) (n : Z) :
  timed_out fn options n = true ->
  In n (op_ordinals (snd (loop fn options s))) ->
  (exists x, fst (loop fn options s) = Rejected x) /\
  Z.of_nat (op_calls (snd (loop fn options s))) = n - attempts s + 1 /\
  (hook_thrown options n = None ->
   Forall (fun c => truthy c = false) (skip_calls fn options n) ->
   fst (loop fn options s) = Rejected timeout_error).
Proof.
  intros Hto.
  apply loop_induction with
    (P := fun s rl =>
            In n (op_ordinals (snd rl)) ->
            (exists x, fst rl = Rejected x) /\
            Z.of_nat (op_calls (snd rl)) = n - attempts s + 1 /\
            (hook_thrown options n = None ->
             Forall (fun c => truthy c = false) (skip_calls fn options n) ->
             fst rl = Rejected timeout_error));
    clear s; cbn [fst snd].
  - intros s _ [].
  - intros s s' r l _ Hit Hin.
    at_iteration Hit (iteration_op_ordinals fn options s) Ho.
    rewrite Ho in Hin.
    destruct (delay_at options (attempts s)) as [dl|thrown] eqn:Edl;
      [|destruct Hin].
    destruct Hin as [<-|[]].
    assert (delay_thrown options (attempts s) = None) as Hdl
      by (unfold delay_thrown; rewrite Edl; reflexivity).
    pose proof (iteration_timed_out fn options s Hdl Hto) as Ht.
    rewrite Hit in Ht. cbn [fst snd] in Ht.
    destruct Ht as [[x Hx] [_ Hp]]. injection Hx as ->.
    split; [exists x; reflexivity|]. split.
    + unfold op_calls. rewrite Ho. cbn [length]. lia.
    + intros Hh Hf. specialize (Hp Hh Hf). congruence.
  - intros s s' l _ Hit IH Hin.
    at_iteration Hit (iteration_op_ordinals_continue fn options s) Ho.
    specialize (Ho eq_refl).
    unfold op_ordinals in Hin. rewrite select_app in Hin.
    apply in_app_or in Hin. destruct Hin as [Hin|Hin].
    + unfold op_ordinals in Ho. rewrite Ho in Hin. destruct Hin as [<-|[]].
      at_iteration Hit (iteration_continue_delay fn options s) Hdc.
      destruct (Hdc eq_refl) as [dl Edl].
      assert (delay_thrown options (attempts s) = None) as Hdl
        by (unfold delay_thrown; rewrite Edl; reflexivity).
      pose proof (iteration_timed_out fn options s Hdl Hto) as Ht.
      rewrite Hit in Ht. cbn [fst snd] in Ht.
      destruct Ht as [[x Hx] _]. discriminate.
    + apply iteration_continue in Hit.
      destruct (IH Hin) as [Hr [Hn Hp]]. split; [exact Hr|]. split; [|exact Hp].
      unfold op_calls in *. unfold op_ordinals in *.
      rewrite select_app, length_app, Ho. cbn [length]. lia.
Qed.

End LateTimer.

(** X5. A timeout ends the call at whatever attempt it happens: if attempt
    [n] takes place and its timer fires before the operation settles,
    the call fails and attempt [n] is the last invocation, however
    many attempts are left; it fails with the timeout error unless the
    capability was called with an error value during that attempt or
    the hook throws. *)
Theorem timeout_in_any_attempt_ends_call
  (T : Type) (fn : UseRetryFn T) (options : UseRetryFnOptions) (n : Z) :
  let run := useRetryFn fn options in
  In n (op_ordinals (snd run)) ->
  timed_out fn options n = true ->
  (exists x, fst run = Rejected x) /\
  Z.of_nat (op_calls (snd run)) = n /\
  (hook_thrown options n = None ->
   Forall (fun c => truthy c = false) (skip_calls fn options n) ->
   fst run = Rejected timeout_error).
Proof.
  intros run Hin Hto. subst run. unfold useRetryFn in *.
  destruct (@loop_timed_out T fn options init_state n Hto Hin) as [Hr [Hn Hp]].
  cbn [attempts init_state] in Hn.
  split; [exact Hr|]. split; [lia | exact Hp].
Qed.

(** An operation that fails at once on its first invocation and takes
    2000 on its second, with a timeout of 1000 and five attempts. *)
Lemma timeout_in_any_attempt_ends_call_witness :
  fst (useRetryFn slow_on_second (mkOptions None None None (Some 1000%N)))
    = Rejected timeout_error /\
  Z.of_nat (op_calls (snd (useRetryFn slow_on_second
                             (mkOptions None None None (Some 1000%N))))) = 2.
Proof.
  destruct (@timeout_in_any_attempt_ends_call
              string slow_on_second (mkOptions None None None (Some 1000%N)) 2)
    as [_ [Hn Hp]].
  - vm_compute. right. left. reflexivity.
  - reflexivity.
  - split; [|exact Hn]. apply Hp; [reflexivity | constructor].
Defined.

(** ** What a call that resolves, or hangs, has gone through *)

Section LastAttempt.

Context {T : Type} (fn : UseRetryFn T) (options : UseRetryFnOptions).

Lemma race_fulfilled (c : settle T) (v : T) :
  race options c = Fulfilled v -> exists d, c = Resolves d v.
Proof.
  unfold race. destruct (timer options), c; try discriminate;
    try (destruct (_ <=? _)%N; try discriminate);
    intros [= ->]; eexists; reflexivity.
Qed.

(** How the iteration ends, read back to the race of its attempt. *)
Lemma iteration_flow_race (s : state) :
  match fst (fst (iteration fn options s)) with
  | Exit (Resolved v) =>
      race options (op_settle (fn (attempts s))) = Fulfilled v /\
      failures (snd (iteration fn options s)) = [] /\
      delay_thrown options (attempts s) = None
  | Exit Pending =>
      race options (op_settle (fn (attempts s))) = Hung /\
      failures (snd (iteration fn options s)) = [] /\
      delay_thrown options (attempts s) = None
  | Continue =>
      race options (op_settle (fn (attempts s))) =
      Failed (lastError (snd (fst (iteration fn options s))))
  | Exit (Rejected _) => True
  end.
Proof.
  destruct (delay_thrown options (attempts s)) as [thrown|] eqn:Hdl.
  { unfold delay_thrown in Hdl. unfold iteration. cbn [attempts].
    destruct (delay_at options (attempts s)); [discriminate | exact I]. }
  destruct (timed_out fn options (attempts s)) eqn:Hto.
  - destruct (iteration_timed_out fn options s Hdl Hto) as [[x Hx] _].
    rewrite Hx. exact I.
  - destruct (@delay_returns options _ Hdl) as [dl Edl].
    unfold timed_out in Hto. unfold failures, iteration, attempt.
    cbn [attempts]. rewrite Edl.
    destruct (race options (op_settle (fn (attempts s)))) as [v|e| |];
      try discriminate; cbn [fst snd].
    + split; [reflexivity|]. split; [|reflexivity].
      unfold delay_log. destruct (delay options) as [[?|?]|]; project; reflexivity.
    + unfold handle, decide.
      destruct (onError options) as [h|];
        [destruct (hook_throws _)|];
        try (destruct (skipRetry _)); cbn [fst snd]; try exact I;
        rewrite ?after_skips_lastError; reflexivity.
    + split; [reflexivity|]. split; [|reflexivity].
      unfold delay_log. destruct (delay options) as [[?|?]|]; project; reflexivity.
Qed.

(** The last attempt of a run of [n] invocations from state [s] wins or
    hangs its race, and the ones before it failed in time. *)
Definition ends_with (s : state) (l : log) (w : raced T) : Prop :=
  let n := Z.of_nat (op_calls l) in
  1 <= n /\
  race options (op_settle (fn (attempts s + n - 1))) = w /\
  Z.of_nat (length (failures l)) = n - 1 /\
  Z.of_nat (delays_awaited l) = n - 1 /\
  forall a, attempts s <= a < attempts s + n - 1 ->
            exists e, race options (op_settle (fn a)) = Failed e.

Lemma loop_last_attempt (s : state) :
  (forall v, fst (loop fn options s) = Resolved v ->
             ends_with s (snd (loop fn options s)) (Fulfilled v)) /\
  (fst (loop fn options s) = Pending ->
   ends_with s (snd (loop fn options s)) Hung).
Proof.
  apply loop_induction with
    (P := fun s rl =>
            (forall v, fst rl = Resolved v -> ends_with s (snd rl) (Fulfilled v)) /\
            (fst rl = Pending -> ends_with s (snd rl) Hung));
    clear s; cbn [fst snd].
  - intros s _. split; [intros v H | intros H]; discriminate.
  - intros s s' r l _ Hit.
    at_iteration Hit (iteration_flow_race s) Hf.
    at_iteration Hit (iteration_op_ordinals fn options s) Ho.
    at_iteration Hit (iteration_sleeps fn options s) Hs.
    assert (forall w, race options (op_settle (fn (attempts s))) = w ->
                      failures l = [] /\ delay_thrown options (attempts s) = None ->
                      sleeps l = [] -> ends_with s l w) as Hend.
    { intros w Hw [Hfl Hdl] Hs0. destruct (@delay_returns options _ Hdl) as [dl Edl].
      rewrite Edl in Ho. unfold ends_with, op_calls, delays_awaited.
      rewrite Ho, Hs0, Hfl. cbn [length].
      replace (attempts s + Z.of_nat 1 - 1) with (attempts s) by lia.
      repeat split; try lia; try exact Hw. }
    split.
    + intros v ->. destruct Hf as [Hw Hfl].
      apply (Hend _ Hw Hfl). rewrite Hs. reflexivity.
    + intros ->. destruct Hf as [Hw Hfl].
      apply (Hend _ Hw Hfl). rewrite Hs. reflexivity.
  - intros s s' l _ Hit [IHr IHp].
    at_iteration Hit (iteration_flow_race s) Hf.
    at_iteration Hit (iteration_op_ordinals_continue fn options s) Ho.
    specialize (Ho eq_refl).
    at_iteration Hit (iteration_sleeps_length fn options s) Hs.
    at_iteration Hit (iteration_failures fn options s) Hfl.
    destruct Hfl as [_ [_ Hfl]]. specialize (Hfl eq_refl).
    apply iteration_continue in Hit.
    assert (forall w, ends_with s' (snd (loop fn options s')) w ->
                      ends_with s (l ++ snd (loop fn options s')) w) as Hstep.
    { intros w [Hn [Hw [Hfa [Hd Hall]]]].
      unfold ends_with, op_calls, delays_awaited in *.
      unfold op_ordinals, sleeps, failures in *.
      rewrite !select_app, !length_app, Ho, Hs, Hfl. cbn [length].
      rewrite Hit in Hw, Hall.
      split; [lia|]. split.
      - rewrite <- Hw. do 3 f_equal. lia.
      - split; [lia|]. split; [lia|].
        intros a Ha. destruct (Z.eq_dec a (attempts s)) as [->|Hne].
        + eexists. exact Hf.
        + apply Hall. lia. }
    split.
    + intros v Hv. apply Hstep. apply IHr. exact Hv.
    + intros Hv. apply Hstep. apply IHp. exact Hv.
Qed.

End LastAttempt.

(** X6. A call that resolves with [v] after [n] invocations: the
    operation resolved with [v] on invocation [n], before any timer;
    every earlier invocation failed before any timer, and was followed
    by one delay; [n] is at most [maxAttempts]. *)
Theorem resolved_value_comes_from_last_attempt
  (T : Type) (fn : UseRetryFn T) (options : UseRetryFnOptions) (v : T) :
  let run := useRetryFn fn options in
  let n := Z.of_nat (op_calls (snd run)) in
  fst run = Resolved v ->
  1 <= n <= max_attempts options /\
  (exists d, op_settle (fn n) = Resolves d v) /\
  timed_out fn options n = false /\
  Z.of_nat (length (failures (snd run))) = n - 1 /\
  Z.of_nat (delays_awaited (snd run)) = n - 1 /\
  (forall a, 1 <= a < n ->
             exists d e, op_settle (fn a) = Rejects d e /\
                         timed_out fn options a = false).
Proof.
  intros run n Hv. subst run n. unfold useRetryFn in *.
  destruct (loop_last_attempt fn options init_state) as [Hr _].
  destruct (Hr v Hv) as [Hn [Hw [Hf [Hd Hall]]]].
  pose proof (loop_op_calls_bound fn options init_state) as Hb.
  cbn [attempts init_state] in *.
  replace (1 + Z.of_nat (op_calls (snd (loop fn options init_state))) - 1)
    with (Z.of_nat (op_calls (snd (loop fn options init_state)))) in * by lia.
  split; [lia|]. split; [exact (race_fulfilled options _ Hw)|].
  split; [unfold timed_out; rewrite Hw; reflexivity|].
  split; [exact Hf|]. split; [exact Hd|].
  intros a Ha. destruct (Hall a ltac:(lia)) as [e He].
  unfold timed_out. rewrite He.
  unfold race in He.
  destruct (timer options) as [t0|], (op_settle (fn a)) as [d0 v0|d0 e0|];
    try discriminate; try (destruct (d0 <=? t0)%N; try discriminate);
    injection He as <-; exists d0, e0; split; reflexivity.
Qed.

(** Three failures, then the success. *)
Lemma resolved_value_comes_from_last_attempt_witness :
  Z.of_nat (op_calls (snd (useRetryFn (fails_until 3) no_options))) = 4 /\
  (exists d, op_settle (fails_until 3 4) = Resolves d "success"%string).
Proof.
  destruct (@resolved_value_comes_from_last_attempt
              string (fails_until 3) no_options "success"%string)
    as [_ [Hs _]].
  - vm_compute. reflexivity.
  - split; [vm_compute; reflexivity | exact Hs].
Defined.

(** ** Where the error of a failed call comes from *)

Section Origin.

Context {T : Type} (fn : UseRetryFn T) (options : UseRetryFnOptions).





End Origin.



(** ** A call that runs out of attempts *)

Section Exhaustion.

Context {T : Type} (fn : UseRetryFn T) (options : UseRetryFnOptions).

Lemma race_failed (c : settle T) (e : jsval) :
  race options c = Failed e -> exists d, c = Rejects d e.
Proof.
  unfold race. destruct (timer options), c; try discriminate;
    try (destruct (_ <=? _)%N; try discriminate);
    intros [= ->]; eexists; reflexivity.
Qed.

Lemma retries_retried (a : Z) :
  delay_thrown options a = None -> retries fn options a = true ->
  exists err, retried fn options a err.
Proof.
  unfold retries, retried, timed_out. intros Hdl.
  destruct (race options (op_settle (fn a))) as [v|e| |] eqn:Er; try discriminate.
  destruct (skip_calls fn options a); [|discriminate].
  destruct (hook_thrown options a); [discriminate|]. intros _.
  exists e. split; [exact (race_failed _ Er)|]. repeat split. exact Hdl.
Qed.

Lemma loop_exhausted (s : state) :
  loop_exits (snd (loop fn options s)) <> [] ->
  let l := snd (loop fn options s) in
  Z.of_nat (op_calls l) = Z.max 0 (max_attempts options + 1 - attempts s) /\
  delays_awaited l = op_calls l /\
  length (failures l) = op_calls l /\
  (forall a, attempts s <= a <= max_attempts options ->
             exists err, retried fn options a err) /\
  exists x, fst (loop fn options s) = Rejected x /\
            (op_calls l = 0%nat -> x = lastError s) /\
            (op_calls l <> 0%nat ->
             race options (op_settle (fn (max_attempts options))) = Failed x).
Proof.
  apply loop_induction with
    (P := fun s rl =>
            loop_exits (snd rl) <> [] ->
            Z.of_nat (op_calls (snd rl)) =
              Z.max 0 (max_attempts options + 1 - attempts s) /\
            delays_awaited (snd rl) = op_calls (snd rl) /\
            length (failures (snd rl)) = op_calls (snd rl) /\
            (forall a, attempts s <= a <= max_attempts options ->
                       exists err, retried fn options a err) /\
            exists x, fst rl = Rejected x /\
                      (op_calls (snd rl) = 0%nat -> x = lastError s) /\
                      (op_calls (snd rl) <> 0%nat ->
                       race options (op_settle (fn (max_attempts options))) = Failed x));
    clear s; cbn [fst snd].
  - intros s Hgt _. cbn. split; [lia|]. split; [reflexivity|]. split; [reflexivity|].
    split; [intros a Ha; lia|].
    eexists. split; [reflexivity|]. split; [reflexivity|]. intro H; contradiction.
  - intros s s' r l _ Hit Hne.
    at_iteration Hit (iteration_loop_exits fn options s) He. contradiction.
  - intros s s' l Hle Hit IH Hne.
    at_iteration Hit (iteration_loop_exits fn options s) He.
    at_iteration Hit (iteration_op_ordinals_continue fn options s) Ho.
    specialize (Ho eq_refl).
    at_iteration Hit (iteration_sleeps_length fn options s) Hs.
    at_iteration Hit (iteration_failures fn options s) Hf.
    at_iteration Hit (iteration_flow_race fn options s) Hr.
    destruct (iteration_goes_round fn options s) as [Hgo _].
    rewrite Hit in Hgo. destruct (Hgo eq_refl) as [Hdl Hre].
    destruct Hf as [_ [_ Hf]]. specialize (Hf eq_refl).
    apply iteration_continue in Hit.
    unfold loop_exits in Hne. rewrite select_app in Hne.
    unfold loop_exits in He. rewrite He in Hne. cbn [app] in Hne.
    destruct (IH Hne) as [Hn [Hd [Hfl [Hall [x [Hx [H0 Hpos]]]]]]].
    unfold op_calls, delays_awaited in *. unfold op_ordinals, sleeps, failures in *.
    rewrite !select_app, !length_app, Ho, Hs, Hf. cbn [length].
    split; [lia|]. split; [lia|]. split; [lia|]. split.
    { intros a Ha. destruct (Z.eq_dec a (attempts s)) as [->|Hne'].
      - apply retries_retried; assumption.
      - apply Hall. lia. }
    exists x. split; [exact Hx|]. split; [intro H; discriminate|].
    intros _.
    match type of Hn with Z.of_nat (length ?sel) = _ =>
      destruct sel as [|o os] eqn:E end.
    + cbn [length] in *. specialize (H0 eq_refl). subst x.
      replace (max_attempts options) with (attempts s) by lia. exact Hr.
    + apply Hpos. discriminate.
Qed.

End Exhaustion.

(** X9. When a call ends because the attempts are used up, with
    [maxAttempts] at least 1: the operation has been invoked exactly
    [maxAttempts] times; every one of these invocations failed before
    any timer, with nobody calling the skip capability, the hook
    returning and the delay function returning; the call fails with
    the error of the last one; and a delay has been awaited after
    every failure, the last one included. *)
Theorem exhaustion_seen_from_the_log
  (T : Type) (fn : UseRetryFn T) (options : UseRetryFnOptions) :
  let run := useRetryFn fn options in
  1 <= max_attempts options ->
  loop_exits (snd run) <> [] ->
  Z.of_nat (op_calls (snd run)) = max_attempts options /\
  Z.of_nat (delays_awaited (snd run)) = max_attempts options /\
  Z.of_nat (length (failures (snd run))) = max_attempts options /\
  (forall a, 1 <= a <= max_attempts options ->
             exists err, retried fn options a err) /\
  exists x, fst run = Rejected x /\
            retried fn options (max_attempts options) x.
Proof.
  intros run Hm Hne. subst run. unfold useRetryFn in *.
  destruct (@loop_exhausted T fn options init_state Hne)
    as [Hn [Hd [Hf [Hall [x [Hx [_ Hpos]]]]]]].
  cbn [attempts init_state] in Hn, Hall.
  split; [lia|]. split; [lia|]. split; [lia|]. split; [exact Hall|].
  exists x. split; [exact Hx|].
  destruct (Hall (max_attempts options) ltac:(lia)) as [err Herr].
  assert (race options (op_settle (fn (max_attempts options))) = Failed x) as Hr
    by (apply Hpos; lia).
  destruct Herr as [[d Hd'] [Ht Hrest]].
  rewrite (rejects_in_time fn options _ Hd' Ht) in Hr. injection Hr as <-.
  split; [exists d; exact Hd' | split; assumption].
Qed.

(** Three attempts that all fail. *)
Lemma exhaustion_seen_from_the_log_witness :
  Z.of_nat (op_calls (snd (useRetryFn always_fails
                             (mkOptions None None (Some 3) None)))) = 3 /\
  Z.of_nat (delays_awaited (snd (useRetryFn always_fails
                                   (mkOptions None None (Some 3) None)))) = 3 /\
  exists x,
    fst (useRetryFn always_fails (mkOptions None None (Some 3) None)) = Rejected x /\
    retried always_fails (mkOptions None None (Some 3) None) 3 x.
Proof.
  destruct (@exhaustion_seen_from_the_log
              string always_fails (mkOptions None None (Some 3) None))
    as [Hn [Hd [_ [_ Hx]]]].
  - cbn. lia.
  - vm_compute. discriminate.
  - split; [exact Hn | split; [exact Hd | exact Hx]].
Defined.
